(** * Versus simulator page: the local re-simulation engine

    A shallow embedding of the client page of the Versus sports simulator
    (the React component [VersusPage], written in TypeScript) and the
    properties its specification states about it.

    The embedded code is
    - [roundScore] and [calculateWinProbability], the two module-level helpers;
    - the [useEffect] that recomputes the scores when a slider moves:
      [recompute], one run of the effect on the state of the component, with
      the locals and the four slider rules in [Section SliderRules];
    - the part of [runSimulation] that consumes the simulation response:
      [applySimulationResponse], with the team matching in [Module Matching];
    - the effect that clears the baseline when a team selection changes
      ([resetOnTeamChange]), the two search filters of the team dropdowns
      ([filteredAwayTeams], [filteredHomeTeams]) and the handlers of the three
      dropdown flags ([Module Dropdowns]);
    - the [GET] handler of the team route ([Module TeamRoute]), the service
      it calls being a parameter.
    The requests of the page to the service, the scheduling of the effects by
    React and the rendering are not modelled: an effect is embedded as one run
    of its body on the state it reads.

    ** Numbers

    Every JavaScript number that the engine adds, subtracts, multiplies,
    divides, compares or rounds is modelled as an exact rational ([Q]): that
    model has no NaN, no infinities, no signed zero and no binary64 rounding
    error.  [===] on numbers is [Qeq_bool], so two numbers that JavaScript
    cannot tell apart are related by [==] (and by [=] where the code copies
    the value).  The two win probabilities go through [Math.exp] and are real
    numbers ([R]).

    What is proved on the exact model is, in the main, of three kinds: facts
    of the control flow (which branch publishes what), equalities between two
    evaluations of one expression, and inequalities that the rounding of each
    operation preserves.  The away-offence rule is of another kind: it says which
    number the page displays, and next to a threshold of [roundScore] that
    number depends on the last binary digit of a difference.  For it the four
    rules and [roundScore] are embedded a second time in [Module Binary64],
    on the binary64 numbers of the kernel, every operation rounded as the
    engine rounds it.

    ** Strings

    A string is the sequence of its characters and [toLowerCase] is a
    parameter ([Class LowerCase]); the sample pages have ASCII names and are
    evaluated with the ASCII mapping. *)

From Stdlib Require Import QArith Qround Qabs Qreals Lqa.
From Stdlib Require Import Reals Lra.
From Stdlib Require Import ZArith Lia.
From Stdlib Require Import Floats.
From Stdlib Require Import Bool List String Ascii DecimalString Permutation.
Import ListNotations.

Open Scope string_scope.
Open Scope Q_scope.

(* ================================================================= *)
(** ** JavaScript operators *)

(** [a === b], overloaded as in the source: on numbers, on strings and on
    values that may be [undefined]. *)
Class StrictEq (A : Type) := strict_eq : A -> A -> bool.

#[export] Instance StrictEq_number : StrictEq Q := Qeq_bool.
#[export] Instance StrictEq_string : StrictEq string := String.eqb.

(** On the numbers as the engine has them, the binary64 floating-point
    numbers: [NaN] is not equal to itself and the two zeros are equal. *)
#[export] Instance StrictEq_binary64 : StrictEq float := PrimFloat.eqb.

(** [undefined === undefined] holds; [undefined] equals no defined value. *)
#[export] Instance StrictEq_optional {A} `{StrictEq A} : StrictEq (option A) :=
  fun a b =>
    match a, b with
    | Some x, Some y => strict_eq x y
    | None, None => true
    | _, _ => false
    end.

Notation "a === b" := (strict_eq a b) (at level 70, no associativity).
Notation "a !== b" := (negb (strict_eq a b)) (at level 70, no associativity).

(** Comparisons of numbers. *)
Definition js_le (x y : Q) : bool := Qle_bool x y.
Definition js_lt (x y : Q) : bool := negb (Qle_bool y x).

Notation "x <=? y" := (js_le x y) (at level 70, no associativity) : Q_scope.
Notation "x <? y" := (js_lt x y) (at level 70, no associativity) : Q_scope.
Notation "x >=? y" := (js_le y x) (at level 70, no associativity) : Q_scope.
Notation "x >? y" := (js_lt y x) (at level 70, no associativity) : Q_scope.

(** [Math.round]: the nearest integer, a tie going up. *)
Definition Math_round (x : Q) : Q := inject_Z (Qfloor (x + 0.5)).

Definition Math_max (x y : Q) : Q := if x <=? y then y else x.

(** [x || d] where [x] is a number that may be missing: [undefined] and [0]
    are falsy. *)
Definition or_default (x : option Q) (d : Q) : Q :=
  match x with
  | Some v => if v === 0 then d else v
  | None => d
  end.

(** [a || b] where [a] is an object that may be missing: every object is
    truthy. *)
Definition or_else {A} (a b : option A) : option A :=
  match a with
  | Some _ => a
  | None => b
  end.

(** [a ?? b]. *)
Definition nullish (a : option Q) (b : Q) : Q :=
  match a with
  | Some v => v
  | None => b
  end.

(** [s.toLowerCase()].  ECMAScript lower-cases with the mapping of Unicode,
    which is not a mapping of the characters one by one (a capital sigma at
    the end of a word and one inside a word go to different letters).  The
    mapping is a parameter of the development, of which nothing is assumed:
    what is proved holds for every mapping, that of ECMAScript among them. *)
Class LowerCase : Type := toLowerCase : string -> string.

(** The mapping on the strings of ASCII characters, where it is the mapping
    of the letters [A] to [Z] one by one.  The sample pages, whose names and
    abbreviations are ASCII, are evaluated with it. *)
Definition lower_ascii (c : ascii) : ascii :=
  let n := nat_of_ascii c in
  if (65 <=? n)%nat && (n <=? 90)%nat then ascii_of_nat (n + 32) else c.

Fixpoint asciiToLowerCase (s : string) : string :=
  match s with
  | EmptyString => EmptyString
  | String c rest => String (lower_ascii c) (asciiToLowerCase rest)
  end.

#[export] Instance asciiLowerCase : LowerCase := asciiToLowerCase.

(* ================================================================= *)
(** ** The module-level helpers *)

(** [roundScore], lines 30-44. *)
Definition roundScore (score : Q) (sport : string) : Q :=
  if (sport === "cfb") || (sport === "nfl") || (sport === "college-football") then
    if score <=? 2 then 0
    else if (score >? 2) && (score <? 4.5) then 3
    else if (score >=? 4.5) && (score <? 6) then 6
    else Math_round score
  else Math_round score.

(** The clamp both probability computations end with:
    [Math.max(0.001, Math.min(0.999, p))]. *)
Definition clampProbability (p : R) : R := Rmax 0.001 (Rmin 0.999 p).

(** [1 / (1 + Math.exp(-k * spread))]. *)
Definition logistic (k spread : Q) : R := (1 / (1 + exp (Q2R (- k * spread))))%R.

(** [calculateWinProbability], lines 48-70; the result is the pair
    [(home, away)].  The two probabilities are real numbers here: the engine
    rounds [1 - home] to binary64, and nothing is stated below on the last
    binary digit of a probability. *)
Definition calculateWinProbability (homeScore awayScore : Q) (sport : string) : R * R :=
  let spread := homeScore - awayScore in
  let k := 0.12 in
  let k :=
    if (sport === "nba") || (sport === "college-basketball") then 0.10
    else if (sport === "nfl") || (sport === "cfb") || (sport === "college-football") then 0.15
    else k in
  let homeWinProb := logistic k spread in
  let home := clampProbability homeWinProb in
  let away := (1 - home)%R in
  (home, away).

(* ================================================================= *)
(** ** The data of the page *)

(** [type Sport]: the four codes the page can hold in its [sport] state. *)
Inductive Sport : Type :=
| nfl
| nba
| college_football
| college_basketball.

Definition sport_code (s : Sport) : string :=
  match s with
  | nfl => "nfl"
  | nba => "nba"
  | college_football => "college-football"
  | college_basketball => "college-basketball"
  end.

(** [interface Team]. *)
Module Team.
Record t : Type := mk {
    id : string;
    name : string;
    abbreviation : option string
  }.
End Team.

(** [interface SimulationResult]. *)
Record SimulationResult : Type := mkSimulationResult {
  away_score : Q;
  home_score : Q;
  spread : Q;
  total : Q;
  away_win_probability : R;
  home_win_probability : R
}.

(** The object held in the [originalRatings] state, lines 110-122. *)
Module OriginalRatings.
Record t : Type := mk {
    awayOffensiveNumericGrade : Q;
    awayOffensiveRating : Q;
    awayDefensiveNumericGrade : Q;
    awayDefensiveRating : Q;
    homeOffensiveNumericGrade : Q;
    homeOffensiveRating : Q;
    homeDefensiveNumericGrade : Q;
    homeDefensiveRating : Q;
    offensiveRange : Q;
    defensiveRange : Q;
    homeFieldAdvantage : Q
  }.
End OriginalRatings.

(** The two mutable locals [awayScore] and [homeScore] of the effect. *)
Record Scores : Type := mkScores {
  awayScore : Q;
  homeScore : Q
}.

(* ================================================================= *)
(** ** The slider rules, lines 188-295

    The locals of the effect, each under its name in the source.  The section
    variables are what the effect reads from the component: the baseline
    ratings, the four slider grades, the sport and the two baseline scores. *)

Section SliderRules.

Variable o : OriginalRatings.t.
Variables awayOffensiveNumericGrade awayDefensiveNumericGrade : Q.
Variables homeOffensiveNumericGrade homeDefensiveNumericGrade : Q.
Variable sport : string.
Variables originalAwayScore originalHomeScore : Q.

Definition newRange : Q := 99 - 60.

Definition hfa : Q := or_default (Some (OriginalRatings.homeFieldAdvantage o)) 1.25.

Definition awayOffChanged : bool :=
    awayOffensiveNumericGrade !== OriginalRatings.awayOffensiveNumericGrade o.
Definition awayDefChanged : bool :=
    awayDefensiveNumericGrade !== OriginalRatings.awayDefensiveNumericGrade o.
Definition homeOffChanged : bool :=
    homeOffensiveNumericGrade !== OriginalRatings.homeOffensiveNumericGrade o.
Definition homeDefChanged : bool :=
    homeDefensiveNumericGrade !== OriginalRatings.homeDefensiveNumericGrade o.

Definition currentAwayOff : Q :=
    (awayOffensiveNumericGrade - OriginalRatings.awayOffensiveNumericGrade o)
      * OriginalRatings.offensiveRange o / newRange
    + OriginalRatings.awayOffensiveRating o.
Definition currentAwayDef : Q :=
    (awayDefensiveNumericGrade - OriginalRatings.awayDefensiveNumericGrade o)
      * OriginalRatings.defensiveRange o / newRange
    + OriginalRatings.awayDefensiveRating o.
Definition currentHomeOff : Q :=
    (homeOffensiveNumericGrade - OriginalRatings.homeOffensiveNumericGrade o)
      * OriginalRatings.offensiveRange o / newRange
    + OriginalRatings.homeOffensiveRating o.
Definition currentHomeDef : Q :=
    (homeDefensiveNumericGrade - OriginalRatings.homeDefensiveNumericGrade o)
      * OriginalRatings.defensiveRange o / newRange
    + OriginalRatings.homeDefensiveRating o.

Definition roundedAwayOff : Q := Math_round (currentAwayOff * 100) / 100.
Definition roundedAwayDef : Q := Math_round (currentAwayDef * 100) / 100.
Definition roundedHomeOff : Q := Math_round (currentHomeOff * 100) / 100.
Definition roundedHomeDef : Q := Math_round (currentHomeDef * 100) / 100.

Definition calculatedOriginalAway : Q :=
    OriginalRatings.awayOffensiveRating o - OriginalRatings.homeDefensiveRating o + hfa.
Definition calculatedOriginalHome : Q :=
    OriginalRatings.homeOffensiveRating o - OriginalRatings.awayDefensiveRating o + hfa.

  (** [if (awayOffChanged) { ... }], lines 245-256. *)
Definition awayOffRule (s : Scores) : Scores :=
    if awayOffChanged then
      if awayOffensiveNumericGrade === OriginalRatings.awayOffensiveNumericGrade o then
        mkScores originalAwayScore (homeScore s)
      else
        let newCalculatedAway := roundedAwayOff - roundedHomeDef + hfa in
        let delta := newCalculatedAway - calculatedOriginalAway in
        mkScores (Math_max 0 (roundScore (originalAwayScore + delta) sport)) (homeScore s)
    else s.

  (** [if (homeOffChanged) { ... }], lines 258-269. *)
Definition homeOffRule (s : Scores) : Scores :=
    if homeOffChanged then
      if homeOffensiveNumericGrade === OriginalRatings.homeOffensiveNumericGrade o then
        mkScores (awayScore s) originalHomeScore
      else
        let newCalculatedHome := roundedHomeOff - roundedAwayDef + hfa in
        let delta := newCalculatedHome - calculatedOriginalHome in
        mkScores (awayScore s) (Math_max 0 (roundScore (originalHomeScore + delta) sport))
    else s.

  (** [if (awayDefChanged) { ... }], lines 271-282. *)
Definition awayDefRule (s : Scores) : Scores :=
    if awayDefChanged then
      if awayDefensiveNumericGrade === OriginalRatings.awayDefensiveNumericGrade o then
        mkScores (awayScore s) originalHomeScore
      else
        let newCalculatedHome := roundedHomeOff - roundedAwayDef + hfa in
        let delta := newCalculatedHome - calculatedOriginalHome in
        mkScores (awayScore s) (Math_max 0 (roundScore (originalHomeScore + delta) sport))
    else s.

  (** [if (homeDefChanged) { ... }], lines 284-295. *)
Definition homeDefRule (s : Scores) : Scores :=
    if homeDefChanged then
      if homeDefensiveNumericGrade === OriginalRatings.homeDefensiveNumericGrade o then
        mkScores originalAwayScore (homeScore s)
      else
        let newCalculatedAway := roundedAwayOff - roundedHomeDef + hfa in
        let delta := newCalculatedAway - calculatedOriginalAway in
        mkScores (Math_max 0 (roundScore (originalAwayScore + delta) sport)) (homeScore s)
    else s.

  (** Lines 240-295: the two locals start at the baseline scores and go
      through the four rules in the order of the source. *)
Definition sliderScores : Scores :=
    homeDefRule (awayDefRule (homeOffRule (awayOffRule
      (mkScores originalAwayScore originalHomeScore)))).

End SliderRules.

(** Lines 302-310: the sensitivity [k] of the recompute path and the two
    probabilities, as the pair [(home, away)]. *)
Definition recomputeSensitivity (sport : string) : Q :=
  let k := 0.13 in
  if (sport === "nba") || (sport === "college-basketball") then 0.13
  else if (sport === "nfl") || (sport === "college-football") then 0.15
  else k.

Definition recomputeWinProbability (sport : string) (spread : Q) : R * R :=
  let k := recomputeSensitivity sport in
  let homeWinProb := logistic k spread in
  let home := clampProbability homeWinProb in
  let away := (1 - home)%R in
  (home, away).

(* ================================================================= *)
(** ** The state of the component

    The state variables and refs of [VersusPage] that the engine reads or
    writes (lines 75-122); the lists, flags and search strings of the user
    interface are left out. *)

Record PageState : Type := mkPageState {
  sport : Sport;
  awayTeam : option Team.t;
  homeTeam : option Team.t;
  simulationResult : option SimulationResult;
  awayOffensiveNumericGrade : Q;
  awayDefensiveNumericGrade : Q;
  homeOffensiveNumericGrade : Q;
  homeDefensiveNumericGrade : Q;
  currentAwayOffensiveRatingRef : option Q;
  currentAwayDefensiveRatingRef : option Q;
  currentHomeOffensiveRatingRef : option Q;
  currentHomeDefensiveRatingRef : option Q;
  originalAwayScoreRef : option Q;
  originalHomeScoreRef : option Q;
  originalRatings : option OriginalRatings.t
}.

Definition setSimulationResult (r : SimulationResult) (st : PageState) : PageState :=
  mkPageState (sport st) (awayTeam st) (homeTeam st) (Some r)
    (awayOffensiveNumericGrade st) (awayDefensiveNumericGrade st)
    (homeOffensiveNumericGrade st) (homeDefensiveNumericGrade st)
    (currentAwayOffensiveRatingRef st) (currentAwayDefensiveRatingRef st)
    (currentHomeOffensiveRatingRef st) (currentHomeDefensiveRatingRef st)
    (originalAwayScoreRef st) (originalHomeScoreRef st) (originalRatings st).

Definition setCurrentRatingRefs (awayOff awayDef homeOff homeDef : Q) (st : PageState)
  : PageState :=
  mkPageState (sport st) (awayTeam st) (homeTeam st) (simulationResult st)
    (awayOffensiveNumericGrade st) (awayDefensiveNumericGrade st)
    (homeOffensiveNumericGrade st) (homeDefensiveNumericGrade st)
    (Some awayOff) (Some awayDef) (Some homeOff) (Some homeDef)
    (originalAwayScoreRef st) (originalHomeScoreRef st) (originalRatings st).

Definition setOriginalScoreRefs (away home : Q) (st : PageState) : PageState :=
  mkPageState (sport st) (awayTeam st) (homeTeam st) (simulationResult st)
    (awayOffensiveNumericGrade st) (awayDefensiveNumericGrade st)
    (homeOffensiveNumericGrade st) (homeDefensiveNumericGrade st)
    (currentAwayOffensiveRatingRef st) (currentAwayDefensiveRatingRef st)
    (currentHomeOffensiveRatingRef st) (currentHomeDefensiveRatingRef st)
    (Some away) (Some home) (originalRatings st).

Definition setOriginalRatings (o : OriginalRatings.t) (st : PageState) : PageState :=
  mkPageState (sport st) (awayTeam st) (homeTeam st) (simulationResult st)
    (awayOffensiveNumericGrade st) (awayDefensiveNumericGrade st)
    (homeOffensiveNumericGrade st) (homeDefensiveNumericGrade st)
    (currentAwayOffensiveRatingRef st) (currentAwayDefensiveRatingRef st)
    (currentHomeOffensiveRatingRef st) (currentHomeDefensiveRatingRef st)
    (originalAwayScoreRef st) (originalHomeScoreRef st) (Some o).

(** The four slider setters, as the [onChange] handlers call them. *)
Definition setAwayOffensiveNumericGrade (g : Q) (st : PageState) : PageState :=
  mkPageState (sport st) (awayTeam st) (homeTeam st) (simulationResult st)
    g (awayDefensiveNumericGrade st)
    (homeOffensiveNumericGrade st) (homeDefensiveNumericGrade st)
    (currentAwayOffensiveRatingRef st) (currentAwayDefensiveRatingRef st)
    (currentHomeOffensiveRatingRef st) (currentHomeDefensiveRatingRef st)
    (originalAwayScoreRef st) (originalHomeScoreRef st) (originalRatings st).

Definition setAwayDefensiveNumericGrade (g : Q) (st : PageState) : PageState :=
  mkPageState (sport st) (awayTeam st) (homeTeam st) (simulationResult st)
    (awayOffensiveNumericGrade st) g
    (homeOffensiveNumericGrade st) (homeDefensiveNumericGrade st)
    (currentAwayOffensiveRatingRef st) (currentAwayDefensiveRatingRef st)
    (currentHomeOffensiveRatingRef st) (currentHomeDefensiveRatingRef st)
    (originalAwayScoreRef st) (originalHomeScoreRef st) (originalRatings st).

Definition setHomeOffensiveNumericGrade (g : Q) (st : PageState) : PageState :=
  mkPageState (sport st) (awayTeam st) (homeTeam st) (simulationResult st)
    (awayOffensiveNumericGrade st) (awayDefensiveNumericGrade st)
    g (homeDefensiveNumericGrade st)
    (currentAwayOffensiveRatingRef st) (currentAwayDefensiveRatingRef st)
    (currentHomeOffensiveRatingRef st) (currentHomeDefensiveRatingRef st)
    (originalAwayScoreRef st) (originalHomeScoreRef st) (originalRatings st).

Definition setHomeDefensiveNumericGrade (g : Q) (st : PageState) : PageState :=
  mkPageState (sport st) (awayTeam st) (homeTeam st) (simulationResult st)
    (awayOffensiveNumericGrade st) (awayDefensiveNumericGrade st)
    (homeOffensiveNumericGrade st) g
    (currentAwayOffensiveRatingRef st) (currentAwayDefensiveRatingRef st)
    (currentHomeOffensiveRatingRef st) (currentHomeDefensiveRatingRef st)
    (originalAwayScoreRef st) (originalHomeScoreRef st) (originalRatings st).

(* ================================================================= *)
(** ** The recompute effect, lines 185-323

    One run of the effect, from the state it reads to the state it leaves.
    The effect returns nothing: its result is what [simulationResult] holds
    afterwards, which is the previous value whenever the effect decides not to
    call [setSimulationResult]. *)

(** Lines 204-211: the object the short-circuit branch publishes. *)
Definition restoredResult (sim : SimulationResult) (originalAwayScore originalHomeScore : Q)
  : SimulationResult :=
  {| away_score := originalAwayScore;
     home_score := originalHomeScore;
     spread := originalHomeScore - originalAwayScore;
     total := originalAwayScore + originalHomeScore;
     away_win_probability := away_win_probability sim;
     home_win_probability := home_win_probability sim |}.

(** Lines 216-321: the object the effect builds once a slider is off its
    baseline grade. *)
Definition recomputedResult (o : OriginalRatings.t) (awayOff awayDef homeOff homeDef : Q)
  (sport : string) (originalAwayScore originalHomeScore : Q) : SimulationResult :=
  let s := sliderScores o awayOff awayDef homeOff homeDef sport
             originalAwayScore originalHomeScore in
  let spread := homeScore s - awayScore s in
  let total := awayScore s + homeScore s in
  let (home, away) := recomputeWinProbability sport spread in
  {| away_score := awayScore s;
     home_score := homeScore s;
     spread := spread;
     total := total;
     away_win_probability := away;
     home_win_probability := home |}.

Definition recompute (st : PageState) : PageState :=
  match originalRatings st, simulationResult st, awayTeam st, homeTeam st with
  | Some o, Some sim, Some _, Some _ =>
    let sport := sport_code (sport st) in
    if sport === "" then st else
    let originalAwayScore := nullish (originalAwayScoreRef st) (away_score sim) in
    let originalHomeScore := nullish (originalHomeScoreRef st) (home_score sim) in
    let awayOff := awayOffensiveNumericGrade st in
    let awayDef := awayDefensiveNumericGrade st in
    let homeOff := homeOffensiveNumericGrade st in
    let homeDef := homeDefensiveNumericGrade st in
    if negb (awayOffChanged o awayOff) && negb (awayDefChanged o awayDef)
       && negb (homeOffChanged o homeOff) && negb (homeDefChanged o homeDef)
    then
      if (away_score sim !== originalAwayScore) || (home_score sim !== originalHomeScore)
      then setSimulationResult (restoredResult sim originalAwayScore originalHomeScore) st
      else st
    else
      let st := setCurrentRatingRefs (roundedAwayOff o awayOff) (roundedAwayDef o awayDef)
                  (roundedHomeOff o homeOff) (roundedHomeDef o homeDef) st in
      let r := recomputedResult o awayOff awayDef homeOff homeDef sport
                 originalAwayScore originalHomeScore in
      if (away_score r !== away_score sim) || (home_score r !== home_score sim)
      then setSimulationResult r st
      else st
  | _, _, _, _ => st
  end.

(* ================================================================= *)
(** ** The simulation response, lines 411-535

    The JSON the simulation service answers with.  A field the page reads
    with [?.] or [|| default] may be missing. *)

Module ApiTeam.
Record t : Type := mk {
  name : option string;
  abbreviation : option string;
  venue : option string;
  score : option Q;
  winProbability : option Q;
  offensiveRating : option Q;
  defensiveRating : option Q;
  offensiveNumericGrade : option Q;
  defensiveNumericGrade : option Q;
  homeFieldAdvantage : option Q
}.
End ApiTeam.

Module ApiOutcome.
Record t : Type := mk {
  pointSpread : option Q;
  totalPoints : option Q
}.
End ApiOutcome.

Module ApiResponse.
Record t : Type := mk {
  team : option (list ApiTeam.t);
  outcome : option ApiOutcome.t;
  offensiveRange : option Q;
  defensiveRange : option Q
}.
End ApiResponse.

(** [x?.f]: the field of an object that may be missing. *)
Definition optional_chain {A B} (x : option A) (f : A -> option B) : option B :=
  match x with
  | Some a => f a
  | None => None
  end.

Module Matching.

Section Tests.

Context {L : LowerCase}.

(** The four tests of the first [find], lines 421-424 and 428-431, on one
    element [t] of the response for the selected team [sel]. *)
Definition exactName (sel : Team.t) (t : ApiTeam.t) : bool :=
  ApiTeam.name t === Some (Team.name sel).
Definition lowerName (sel : Team.t) (t : ApiTeam.t) : bool :=
  option_map toLowerCase (ApiTeam.name t) === option_map toLowerCase (Some (Team.name sel)).
Definition exactAbbreviation (sel : Team.t) (t : ApiTeam.t) : bool :=
  ApiTeam.abbreviation t === Team.abbreviation sel.
Definition lowerAbbreviation (sel : Team.t) (t : ApiTeam.t) : bool :=
  option_map toLowerCase (ApiTeam.abbreviation t)
    === option_map toLowerCase (Team.abbreviation sel).

(** The callback of the first [find]. *)
Definition matchesSelected (sel : Team.t) (t : ApiTeam.t) : bool :=
  exactName sel t || lowerName sel t || exactAbbreviation sel t || lowerAbbreviation sel t.

Definition hasVenue (v : string) (t : ApiTeam.t) : bool :=
  ApiTeam.venue t === Some v.

(** [awayTeamData], lines 420-425. *)
Definition awayTeamData (teams : list ApiTeam.t) (awayTeam : Team.t) : option ApiTeam.t :=
  or_else (find (matchesSelected awayTeam) teams)
    (or_else (find (hasVenue "Away") teams) (nth_error teams 0)).

(** [homeTeamData], lines 427-432. *)
Definition homeTeamData (teams : list ApiTeam.t) (homeTeam : Team.t) : option ApiTeam.t :=
  or_else (find (matchesSelected homeTeam) teams)
    (or_else (find (hasVenue "Home") teams) (nth_error teams 1)).

(** The chain as the specification words it: six rules, each tried on the
    whole array before the next one is. *)
Definition chainBySpec (teams : list ApiTeam.t) (sel : Team.t) (v : string) (position : nat)
  : option ApiTeam.t :=
  or_else (find (exactName sel) teams)
    (or_else (find (lowerName sel) teams)
      (or_else (find (exactAbbreviation sel) teams)
        (or_else (find (lowerAbbreviation sel) teams)
          (or_else (find (hasVenue v) teams) (nth_error teams position))))).

(** The shape the two lookups share: the venue and the position are
    ["Away"] and 0 for the away team, ["Home"] and 1 for the home team. *)
Definition lookup (v : string) (position : nat) (teams : list ApiTeam.t) (sel : Team.t)
  : option ApiTeam.t :=
  or_else (find (matchesSelected sel) teams)
    (or_else (find (hasVenue v) teams) (nth_error teams position)).

(** All the elements that pass a test are one and the same team. *)
Definition oneCandidate (teams : list ApiTeam.t) (sel : Team.t) : Prop :=
  forall t1 t2, In t1 teams -> In t2 teams ->
    matchesSelected sel t1 = true -> matchesSelected sel t2 = true -> t1 = t2.

End Tests.

End Matching.

(** The success path of [runSimulation] once the response [data] is parsed,
    lines 364-535.  The request itself, the alerts and the [loading] flag are
    not modelled. *)
Definition applySimulationResponse {L : LowerCase} (data : ApiResponse.t) (st : PageState)
  : PageState :=
  match awayTeam st, homeTeam st, originalRatings st with
  | Some away, Some home, None =>
    let teams := match ApiResponse.team data with Some l => l | None => [] end in
    let awayTeamData := Matching.awayTeamData teams away in
    let homeTeamData := Matching.homeTeamData teams home in
    let outcome := ApiResponse.outcome data in
    let transformed :=
      {| away_score := or_default (optional_chain awayTeamData ApiTeam.score) 0;
         home_score := or_default (optional_chain homeTeamData ApiTeam.score) 0;
         spread := or_default (optional_chain outcome ApiOutcome.pointSpread) 0;
         total := or_default (optional_chain outcome ApiOutcome.totalPoints) 0;
         away_win_probability :=
           Q2R (or_default (optional_chain awayTeamData ApiTeam.winProbability) 0 / 100);
         home_win_probability :=
           Q2R (or_default (optional_chain homeTeamData ApiTeam.winProbability) 0 / 100) |} in
    let st := setSimulationResult transformed st in
    let st := setOriginalScoreRefs (away_score transformed) (home_score transformed) st in
    match ApiResponse.team data, awayTeamData, homeTeamData with
    | Some l, Some a, Some h =>
      if (2 <=? List.length l)%nat then
        let apiAwayOffGrade := or_default (ApiTeam.offensiveNumericGrade a) 75 in
        let apiAwayDefGrade := or_default (ApiTeam.defensiveNumericGrade a) 75 in
        let apiHomeOffGrade := or_default (ApiTeam.offensiveNumericGrade h) 75 in
        let apiHomeDefGrade := or_default (ApiTeam.defensiveNumericGrade h) 75 in
        let isNewTeamSelection := match originalRatings st with Some _ => false | None => true end in
        let ratings :=
          {| OriginalRatings.awayOffensiveNumericGrade := apiAwayOffGrade;
             OriginalRatings.awayOffensiveRating := or_default (ApiTeam.offensiveRating a) 0;
             OriginalRatings.awayDefensiveNumericGrade := apiAwayDefGrade;
             OriginalRatings.awayDefensiveRating := or_default (ApiTeam.defensiveRating a) 0;
             OriginalRatings.homeOffensiveNumericGrade := apiHomeOffGrade;
             OriginalRatings.homeOffensiveRating := or_default (ApiTeam.offensiveRating h) 0;
             OriginalRatings.homeDefensiveNumericGrade := apiHomeDefGrade;
             OriginalRatings.homeDefensiveRating := or_default (ApiTeam.defensiveRating h) 0;
             OriginalRatings.offensiveRange := or_default (ApiResponse.offensiveRange data) 20;
             OriginalRatings.defensiveRange := or_default (ApiResponse.defensiveRange data) 20;
             OriginalRatings.homeFieldAdvantage :=
               or_default (ApiTeam.homeFieldAdvantage h) 1.25 |} in
        let grade (current api : Q) : Q :=
          if isNewTeamSelection then api
          else if current === 75 then api else current in
        let st' := setOriginalRatings ratings st in
        let st' := setCurrentRatingRefs
                     (or_default (ApiTeam.offensiveRating a) 0)
                     (or_default (ApiTeam.defensiveRating a) 0)
                     (or_default (ApiTeam.offensiveRating h) 0)
                     (or_default (ApiTeam.defensiveRating h) 0) st' in
        let st' := setAwayOffensiveNumericGrade
                     (grade (awayOffensiveNumericGrade st) apiAwayOffGrade) st' in
        let st' := setAwayDefensiveNumericGrade
                     (grade (awayDefensiveNumericGrade st) apiAwayDefGrade) st' in
        let st' := setHomeOffensiveNumericGrade
                     (grade (homeOffensiveNumericGrade st) apiHomeOffGrade) st' in
        setHomeDefensiveNumericGrade
          (grade (homeDefensiveNumericGrade st) apiHomeDefGrade) st'
      else st
    | _, _, _ => st
    end
  | _, _, _ => st
  end.

(* ================================================================= *)
(** ** The sliders as the user moves them *)

(** The four sliders, and a move of one of them: the [onChange] handler sets
    the grade and the effect runs on the new state. *)
Inductive Slider : Type := AwayOff | AwayDef | HomeOff | HomeDef.

Definition setSlider (sl : Slider) (g : Q) (st : PageState) : PageState :=
  match sl with
  | AwayOff => setAwayOffensiveNumericGrade g st
  | AwayDef => setAwayDefensiveNumericGrade g st
  | HomeOff => setHomeOffensiveNumericGrade g st
  | HomeDef => setHomeDefensiveNumericGrade g st
  end.

Definition moveSlider (sl : Slider) (g : Q) (st : PageState) : PageState :=
  recompute (setSlider sl g st).

Definition sliderGrade (sl : Slider) (st : PageState) : Q :=
  match sl with
  | AwayOff => awayOffensiveNumericGrade st
  | AwayDef => awayDefensiveNumericGrade st
  | HomeOff => homeOffensiveNumericGrade st
  | HomeDef => homeDefensiveNumericGrade st
  end.

Definition baselineGrade (sl : Slider) (o : OriginalRatings.t) : Q :=
  match sl with
  | AwayOff => OriginalRatings.awayOffensiveNumericGrade o
  | AwayDef => OriginalRatings.awayDefensiveNumericGrade o
  | HomeOff => OriginalRatings.homeOffensiveNumericGrade o
  | HomeDef => OriginalRatings.homeDefensiveNumericGrade o
  end.

(** The other slider whose rule writes the same score. *)
Definition companion (sl : Slider) : Slider :=
  match sl with
  | AwayOff => HomeDef
  | HomeDef => AwayOff
  | HomeOff => AwayDef
  | AwayDef => HomeOff
  end.

(** The score a slider affects, in a result and in the baseline. *)
Definition affectedScore (sl : Slider) (r : SimulationResult) : Q :=
  match sl with
  | AwayOff | HomeDef => away_score r
  | HomeOff | AwayDef => home_score r
  end.

Definition affectedBaseline (sl : Slider) (a h : Q) : Q :=
  match sl with
  | AwayOff | HomeDef => a
  | HomeOff | AwayDef => h
  end.

Definition affectedSide (sl : Slider) (s : Scores) : Q :=
  match sl with
  | AwayOff | HomeDef => awayScore s
  | HomeOff | AwayDef => homeScore s
  end.

(** The rule of a slider, at the four grades. *)
Definition sliderRule (sl : Slider) (o : OriginalRatings.t)
  (awayOff awayDef homeOff homeDef : Q) (sport : string) (a h : Q) : Scores -> Scores :=
  match sl with
  | AwayOff => awayOffRule o awayOff homeDef sport a
  | HomeOff => homeOffRule o awayDef homeOff sport h
  | AwayDef => awayDefRule o awayDef homeOff sport h
  | HomeDef => homeDefRule o awayOff homeDef sport a
  end.

(** The moves of one slider: each grade of [path] in turn. *)
Definition moveAlong (sl : Slider) (path : list Q) (st : PageState) : PageState :=
  fold_left (fun s g => moveSlider sl g s) path st.

(** The away score the page displays. *)
Definition displayedAwayScore (st : PageState) : option Q :=
  option_map away_score (simulationResult st).

(** A slider is off its baseline grade, as the effect tests it. *)
Definition sliderChanged (sl : Slider) (o : OriginalRatings.t) (st : PageState) : bool :=
  sliderGrade sl st !== baselineGrade sl o.

(** No slider is off its baseline grade. *)
Definition slidersAtBaseline (st : PageState) (o : OriginalRatings.t) : bool :=
  negb (awayOffChanged o (awayOffensiveNumericGrade st))
  && negb (awayDefChanged o (awayDefensiveNumericGrade st))
  && negb (homeOffChanged o (homeOffensiveNumericGrade st))
  && negb (homeDefChanged o (homeDefensiveNumericGrade st)).

(** The baseline is captured: the ratings and the two baseline scores are
    stored, both teams are selected and a result is displayed. *)
Definition baselineCaptured (st : PageState) (o : OriginalRatings.t) (a h : Q) : Prop :=
  originalRatings st = Some o
  /\ originalAwayScoreRef st = Some a
  /\ originalHomeScoreRef st = Some h
  /\ awayTeam st <> None
  /\ homeTeam st <> None
  /\ simulationResult st <> None.

(* ================================================================= *)
(** ** The slider rules in binary64

    The same lines of the effect (189 and 216-295) and [roundScore] with the
    numbers as the engine has them: binary64 floating-point numbers, each
    operation rounded to the nearest.  The grades, the ratings, the ranges
    and the scores are numbers of the response or of a slider; the
    operations are written in the order of the source. *)
Module Binary64.

Local Open Scope float_scope.

(** [Math.round]: [x] itself when it is not finite or has no fractional
    part, otherwise the integer [floor(x + 1/2)], computed exactly, with the
    sign of [x] when it is zero. *)
Definition Math_round (x : float) : float :=
  match Prim2SF x with
  | S754_finite s m e =>
    if (0 <=? e)%Z then x
    else
      let twice := (2 * (if s then Z.neg m else Z.pos m))%Z in
      SF2Prim (binary_normalize prec emax ((twice + 2 ^ (- e)) / 2 ^ (- e + 1)) 0 s)
  | _ => x
  end.

(** [Math.max] of two numbers: [NaN] when one is, and the positive zero of
    two zeros. *)
Definition Math_max (x y : float) : float :=
  if is_nan x || is_nan y then nan
  else if x <? y then y
  else if y <? x then x
  else if get_sign x then y else x.

(** [x || d] on a number: the zeros and [NaN] are falsy. *)
Definition or_default (x d : float) : float :=
  if (x =? 0) || is_nan x then d else x.

(** [roundScore], lines 30-44. *)
Definition roundScore (score : float) (sport : string) : float :=
  if (sport === "cfb") || (sport === "nfl") || (sport === "college-football") then
    if score <=? 2 then 0
    else if (2 <? score) && (score <? 4.5) then 3
    else if (4.5 <=? score) && (score <? 6) then 6
    else Math_round score
  else Math_round score.

Module OriginalRatings.
Record t : Type := mk {
    awayOffensiveNumericGrade : float;
    awayOffensiveRating : float;
    awayDefensiveNumericGrade : float;
    awayDefensiveRating : float;
    homeOffensiveNumericGrade : float;
    homeOffensiveRating : float;
    homeDefensiveNumericGrade : float;
    homeDefensiveRating : float;
    offensiveRange : float;
    defensiveRange : float;
    homeFieldAdvantage : float
  }.
End OriginalRatings.

Record Scores : Type := mkScores {
  awayScore : float;
  homeScore : float
}.

Section SliderRules.

Variable o : OriginalRatings.t.
Variables awayOffensiveNumericGrade awayDefensiveNumericGrade : float.
Variables homeOffensiveNumericGrade homeDefensiveNumericGrade : float.
Variable sport : string.
Variables originalAwayScore originalHomeScore : float.

Definition newRange : float := 99 - 60.

Definition hfa : float := or_default (OriginalRatings.homeFieldAdvantage o) 1.25.

Definition awayOffChanged : bool :=
    awayOffensiveNumericGrade !== OriginalRatings.awayOffensiveNumericGrade o.
Definition awayDefChanged : bool :=
    awayDefensiveNumericGrade !== OriginalRatings.awayDefensiveNumericGrade o.
Definition homeOffChanged : bool :=
    homeOffensiveNumericGrade !== OriginalRatings.homeOffensiveNumericGrade o.
Definition homeDefChanged : bool :=
    homeDefensiveNumericGrade !== OriginalRatings.homeDefensiveNumericGrade o.

Definition currentAwayOff : float :=
    (awayOffensiveNumericGrade - OriginalRatings.awayOffensiveNumericGrade o)
      * OriginalRatings.offensiveRange o / newRange
    + OriginalRatings.awayOffensiveRating o.
Definition currentAwayDef : float :=
    (awayDefensiveNumericGrade - OriginalRatings.awayDefensiveNumericGrade o)
      * OriginalRatings.defensiveRange o / newRange
    + OriginalRatings.awayDefensiveRating o.
Definition currentHomeOff : float :=
    (homeOffensiveNumericGrade - OriginalRatings.homeOffensiveNumericGrade o)
      * OriginalRatings.offensiveRange o / newRange
    + OriginalRatings.homeOffensiveRating o.
Definition currentHomeDef : float :=
    (homeDefensiveNumericGrade - OriginalRatings.homeDefensiveNumericGrade o)
      * OriginalRatings.defensiveRange o / newRange
    + OriginalRatings.homeDefensiveRating o.

Definition roundedAwayOff : float := Math_round (currentAwayOff * 100) / 100.
Definition roundedAwayDef : float := Math_round (currentAwayDef * 100) / 100.
Definition roundedHomeOff : float := Math_round (currentHomeOff * 100) / 100.
Definition roundedHomeDef : float := Math_round (currentHomeDef * 100) / 100.

Definition calculatedOriginalAway : float :=
    OriginalRatings.awayOffensiveRating o - OriginalRatings.homeDefensiveRating o + hfa.
Definition calculatedOriginalHome : float :=
    OriginalRatings.homeOffensiveRating o - OriginalRatings.awayDefensiveRating o + hfa.

Definition awayOffRule (s : Scores) : Scores :=
    if awayOffChanged then
      if awayOffensiveNumericGrade === OriginalRatings.awayOffensiveNumericGrade o then
        mkScores originalAwayScore (homeScore s)
      else
        let newCalculatedAway := roundedAwayOff - roundedHomeDef + hfa in
        let delta := newCalculatedAway - calculatedOriginalAway in
        mkScores (Math_max 0 (roundScore (originalAwayScore + delta) sport)) (homeScore s)
    else s.

Definition homeOffRule (s : Scores) : Scores :=
    if homeOffChanged then
      if homeOffensiveNumericGrade === OriginalRatings.homeOffensiveNumericGrade o then
        mkScores (awayScore s) originalHomeScore
      else
        let newCalculatedHome := roundedHomeOff - roundedAwayDef + hfa in
        let delta := newCalculatedHome - calculatedOriginalHome in
        mkScores (awayScore s) (Math_max 0 (roundScore (originalHomeScore + delta) sport))
    else s.

Definition awayDefRule (s : Scores) : Scores :=
    if awayDefChanged then
      if awayDefensiveNumericGrade === OriginalRatings.awayDefensiveNumericGrade o then
        mkScores (awayScore s) originalHomeScore
      else
        let newCalculatedHome := roundedHomeOff - roundedAwayDef + hfa in
        let delta := newCalculatedHome - calculatedOriginalHome in
        mkScores (awayScore s) (Math_max 0 (roundScore (originalHomeScore + delta) sport))
    else s.

Definition homeDefRule (s : Scores) : Scores :=
    if homeDefChanged then
      if homeDefensiveNumericGrade === OriginalRatings.homeDefensiveNumericGrade o then
        mkScores originalAwayScore (homeScore s)
      else
        let newCalculatedAway := roundedAwayOff - roundedHomeDef + hfa in
        let delta := newCalculatedAway - calculatedOriginalAway in
        mkScores (Math_max 0 (roundScore (originalAwayScore + delta) sport)) (homeScore s)
    else s.

(** Lines 240-295: the two locals start at the baseline scores and go
    through the four rules in the order of the source. *)
Definition sliderScores : Scores :=
    homeDefRule (awayDefRule (homeOffRule (awayOffRule
      (mkScores originalAwayScore originalHomeScore)))).

End SliderRules.

(** The ratings of the sample page. *)
Definition sampleRatings : OriginalRatings.t :=
  OriginalRatings.mk 80 10 75 9 82 11 78 8 20 20 1.25.

End Binary64.

(* ================================================================= *)
(** ** The vocabulary of the specification *)

(** The projection as the specification writes it, before the rounding:
    [(grade - baselineGrade) * scaleRange / gradeSpan + baselineRating] with
    a grade span of 39. *)
Definition projectionBySpec (grade baselineGrade baselineRating scaleRange : Q) : Q :=
  (grade - baselineGrade) * scaleRange / 39 + baselineRating.

(** A number is given to two decimal places when a hundred times it is an
    integer. *)
Definition twoDecimals (x : Q) : Prop := exists z : Z, x == inject_Z z / 100.

(** A score that the rounding policy and the floor at 0 return as it is. *)
Definition stableScore (a : Q) (code : string) : Prop :=
  Math_max 0 (roundScore a code) == a.

(** The sensitivity of the recompute path on the four sports of the page. *)
Definition sensitivityOf (s : Sport) : R :=
  match s with
  | nfl | college_football => 0.15%R
  | nba | college_basketball => 0.13%R
  end.

(* ================================================================= *)
(** ** A sample page *)

(** A matchup and the response of the simulation service to it. *)
Definition cowboys : Team.t := Team.mk "6" "Dallas Cowboys" (Some "DAL").
Definition eagles : Team.t := Team.mk "21" "Philadelphia Eagles" (Some "PHI").

Definition selectedState : PageState :=
  {| sport := nfl;
     awayTeam := Some cowboys;
     homeTeam := Some eagles;
     simulationResult := None;
     awayOffensiveNumericGrade := 75;
     awayDefensiveNumericGrade := 75;
     homeOffensiveNumericGrade := 75;
     homeDefensiveNumericGrade := 75;
     currentAwayOffensiveRatingRef := None;
     currentAwayDefensiveRatingRef := None;
     currentHomeOffensiveRatingRef := None;
     currentHomeDefensiveRatingRef := None;
     originalAwayScoreRef := None;
     originalHomeScoreRef := None;
     originalRatings := None |}.

Definition sampleResponse : ApiResponse.t :=
  {| ApiResponse.team := Some
       [ ApiTeam.mk (Some "Dallas Cowboys") (Some "DAL") (Some "Away")
           (Some 17) (Some 30) (Some 10) (Some 9) (Some 80) (Some 75) None;
         ApiTeam.mk (Some "Philadelphia Eagles") (Some "PHI") (Some "Home")
           (Some 24) (Some 70) (Some 11) (Some 8) (Some 82) (Some 78) (Some 1.25) ];
     ApiResponse.outcome := Some (ApiOutcome.mk (Some (-7)) (Some 41));
     ApiResponse.offensiveRange := Some 20;
     ApiResponse.defensiveRange := Some 20 |}.

(** The ratings that response stores. *)
Definition sampleRatings : OriginalRatings.t :=
  OriginalRatings.mk 80 10 75 9 82 11 78 8 20 20 1.25.

Definition sampleState : PageState := applySimulationResponse sampleResponse selectedState.

(** The same matchup with a simulated away score of 1. *)
Definition lowScoringResponse : ApiResponse.t :=
  {| ApiResponse.team := Some
       [ ApiTeam.mk (Some "Dallas Cowboys") (Some "DAL") (Some "Away")
           (Some 1) (Some 2) (Some 10) (Some 9) (Some 80) (Some 75) None;
         ApiTeam.mk (Some "Philadelphia Eagles") (Some "PHI") (Some "Home")
           (Some 24) (Some 98) (Some 11) (Some 8) (Some 82) (Some 78) (Some 1.25) ];
     ApiResponse.outcome := Some (ApiOutcome.mk (Some 23) (Some 25));
     ApiResponse.offensiveRange := Some 20;
     ApiResponse.defensiveRange := Some 20 |}.

Definition lowScoringState : PageState :=
  applySimulationResponse lowScoringResponse selectedState.

(* ================================================================= *)
(** ** The rest of the page *)

(** [s.includes(sub)]: [sub] occurs in [s]. *)
Fixpoint includes (s sub : string) : bool :=
  String.prefix sub s
  || match s with
     | EmptyString => false
     | String _ rest => includes rest sub
     end.

(** The callback of the two [filter] calls, lines 544-552: the search, in
    lower case, occurs in the name or in the abbreviation, in lower case.  A
    team without an abbreviation gives [undefined], which is falsy. *)
Definition teamMatchesSearch {L : LowerCase} (search : string) (team : Team.t) : bool :=
  includes (toLowerCase (Team.name team)) (toLowerCase search)
  || match option_map toLowerCase (Team.abbreviation team) with
     | Some abbreviation => includes abbreviation (toLowerCase search)
     | None => false
     end.

(** [filteredAwayTeams], lines 544-547, and [filteredHomeTeams], lines
    549-552, of the list [teams] and the two search strings. *)
Definition filteredAwayTeams {L : LowerCase} (teams : list Team.t) (awaySearch : string)
  : list Team.t :=
  filter (teamMatchesSearch awaySearch) teams.

Definition filteredHomeTeams {L : LowerCase} (teams : list Team.t) (homeSearch : string)
  : list Team.t :=
  filter (teamMatchesSearch homeSearch) teams.

(** One run of the effect on the two selected teams, lines 166-181: it
    clears the baseline ratings and the displayed result, and puts the
    sliders back on 75 when a team is missing.  The refs are not touched. *)
Definition resetOnTeamChange (st : PageState) : PageState :=
  match awayTeam st, homeTeam st with
  | Some _, Some _ =>
    mkPageState (sport st) (awayTeam st) (homeTeam st) None
      (awayOffensiveNumericGrade st) (awayDefensiveNumericGrade st)
      (homeOffensiveNumericGrade st) (homeDefensiveNumericGrade st)
      (currentAwayOffensiveRatingRef st) (currentAwayDefensiveRatingRef st)
      (currentHomeOffensiveRatingRef st) (currentHomeDefensiveRatingRef st)
      (originalAwayScoreRef st) (originalHomeScoreRef st) None
  | _, _ =>
    mkPageState (sport st) (awayTeam st) (homeTeam st) None
      75 75 75 75
      (currentAwayOffensiveRatingRef st) (currentAwayDefensiveRatingRef st)
      (currentHomeOffensiveRatingRef st) (currentHomeDefensiveRatingRef st)
      (originalAwayScoreRef st) (originalHomeScoreRef st) None
  end.

(** The user's moves of any of the four sliders, one after the other. *)
Definition moveSliders (moves : list (Slider * Q)) (st : PageState) : PageState :=
  fold_left (fun s m => moveSlider (fst m) (snd m) s) moves st.

(** *** The dropdowns

    The three flags [showAwayDropdown], [showHomeDropdown] and
    [showSportDropdown] (lines 82-84) and the handlers that write them. *)
Module Dropdowns.

Record t : Type := mk {
  showAwayDropdown : bool;
  showHomeDropdown : bool;
  showSportDropdown : bool
}.

Definition initial : t := mk false false false.

Inductive Event : Type :=
| SportButton      (* lines 809-816 *)
| SportOption      (* lines 872-878 *)
| AwayButton       (* lines 923-929 *)
| AwayOption       (* lines 1024-1031 *)
| HomeButton       (* lines 1072-1078 *)
| HomeOption       (* lines 1173-1180 *)
| ClickOutside.    (* lines 141-155 *)

Definition handle (d : t) (e : Event) : t :=
  match e with
  | SportButton => mk false false (negb (showSportDropdown d))
  | SportOption => mk (showAwayDropdown d) (showHomeDropdown d) false
  | AwayButton => mk (negb (showAwayDropdown d)) false (showSportDropdown d)
  | AwayOption => mk false (showHomeDropdown d) (showSportDropdown d)
  | HomeButton => mk false (negb (showHomeDropdown d)) (showSportDropdown d)
  | HomeOption => mk (showAwayDropdown d) false (showSportDropdown d)
  | ClickOutside =>
    if showAwayDropdown d || showHomeDropdown d || showSportDropdown d
    then mk false false false
    else d
  end.

Definition run (events : list Event) : t := fold_left handle events initial.

End Dropdowns.

(* ================================================================= *)
(** ** The team route, [src/app/api/versus/team/route.ts]

    The [GET] handler of the route that proxies one team of the simulation
    service.  The service is what the handler cannot see into: it is a
    function from the requested address to what [fetch] and the reading of
    the answer give. *)
Module TeamRoute.

Definition VERSUS_API_BASE : string := "https://www.versussportssimulator.com/api/v1".

(** What the request to the service comes to: [fetch] or the reading of the
    body throws (an [Error] with its message, or something else), the answer
    is not [ok], or the answer is [ok] and its JSON is read. *)
Inductive Upstream : Type :=
| Throws (message : option string)
| NotOk (status : nat) (errorText : string)
| Ok (data : string).

(** The answer of the handler: the status and either the data or the
    [error] field of the body. *)
Inductive Body : Type :=
| Data (data : string)
| Error (error : string).

Record Response : Type := mkResponse {
  status : nat;
  body : Body
}.

(** [`${n}`] of a status. *)
Definition showStatus (n : nat) : string := NilEmpty.string_of_uint (Nat.to_uint n).

(** [x || d] on a query parameter: [null] and the empty string are falsy. *)
Definition param_or (x : option string) (d : string) : string :=
  match x with
  | Some v => if v === "" then d else v
  | None => d
  end.

(** [!x] on a query parameter. *)
Definition param_missing (x : option string) : bool :=
  match x with
  | Some v => v === ""
  | None => true
  end.

(** [GET], lines 7-49, on the two query parameters. *)
Definition GET (sportParam teamParam : option string) (service : string -> Upstream)
  : Response :=
  let sport := param_or sportParam "nfl" in
  let team := teamParam in
  if param_missing team then
    mkResponse 400 (Error "Missing required parameter: team")
  else
    let team := match team with Some v => v | None => "" end in
    match service (VERSUS_API_BASE ++ "/teams/" ++ sport ++ "/" ++ team) with
    | Ok data => mkResponse 200 (Data data)
    | NotOk upstreamStatus errorText =>
      mkResponse 500
        (Error ("Versus API error: " ++ showStatus upstreamStatus ++ " - " ++ errorText))
    | Throws (Some message) => mkResponse 500 (Error message)
    | Throws None => mkResponse 500 (Error "Unknown error")
    end.

End TeamRoute.

(* ================================================================= *)
(** * Properties *)

(** ** Comparisons, [Math.max] and [Math.round] *)

Lemma js_le_iff (x y : Q) : (x <=? y) = true <-> x <= y.
Proof. unfold js_le. apply Qle_bool_iff. Qed.

Lemma js_lt_iff (x y : Q) : (x <? y) = true <-> x < y.
Proof.
  unfold js_lt. rewrite negb_true_iff.
  split; intro H.
  - apply Qnot_le_lt. intro Hle. apply Qle_bool_iff in Hle. congruence.
  - destruct (Qle_bool y x) eqn:E; [|reflexivity].
    apply Qle_bool_iff in E. exfalso. exact (Qlt_not_le _ _ H E).
Qed.

Lemma js_le_false_iff (x y : Q) : (x <=? y) = false <-> y < x.
Proof.
  rewrite <- js_lt_iff. unfold js_lt, js_le.
  destruct (Qle_bool x y); simpl; intuition congruence.
Qed.

Lemma js_lt_false_iff (x y : Q) : (x <? y) = false <-> y <= x.
Proof.
  rewrite <- js_le_iff. unfold js_lt, js_le.
  destruct (Qle_bool y x); simpl; intuition congruence.
Qed.

Lemma strict_eq_number_iff (x y : Q) : (x === y) = true <-> x == y.
Proof. apply Qeq_bool_iff. Qed.

Lemma strict_eq_number_refl (x : Q) : (x === x) = true.
Proof. apply Qeq_bool_refl. Qed.

Lemma strict_neq_false (x y : Q) : (x !== y) = false -> x == y.
Proof. rewrite negb_false_iff. apply strict_eq_number_iff. Qed.

Lemma strict_eq_string_iff (a b : string) : (a === b) = true <-> a = b.
Proof. apply String.eqb_eq. Qed.

(** Turns the boolean tests of the hypotheses and of the goal into
    propositions on [Q]. *)
Ltac js_tests :=
  repeat match goal with
  | H : (_ && _) = true |- _ => apply andb_true_iff in H; destruct H
  | H : (_ && _) = false |- _ => apply andb_false_iff in H
  | H : (_ <=? _) = true |- _ => apply js_le_iff in H
  | H : (_ <=? _) = false |- _ => apply js_le_false_iff in H
  | H : (_ <? _) = true |- _ => apply js_lt_iff in H
  | H : (_ <? _) = false |- _ => apply js_lt_false_iff in H
  end.

Lemma Math_max_ge_l (x y : Q) : x <= Math_max x y.
Proof.
  unfold Math_max. destruct (x <=? y) eqn:E; js_tests; [assumption | apply Qle_refl].
Qed.

Lemma Math_max_of_le (x y : Q) : x <= y -> Math_max x y = y.
Proof. intro H. unfold Math_max. apply js_le_iff in H. now rewrite H. Qed.

Lemma Math_max_of_gt (x y : Q) : y < x -> Math_max x y = x.
Proof. intro H. unfold Math_max. apply js_le_false_iff in H. now rewrite H. Qed.

Lemma Math_max_mono (c x y : Q) : x <= y -> Math_max c x <= Math_max c y.
Proof.
  intro H. unfold Math_max.
  destruct (c <=? x) eqn:E1, (c <=? y) eqn:E2; js_tests; Lqa.lra.
Qed.

(** [Math.round x] is an integer within one half of [x]: the nearest one,
    the upper one at a tie. *)
Lemma Math_round_bounds (x : Q) : x - 0.5 < Math_round x /\ Math_round x <= x + 0.5.
Proof.
  unfold Math_round. split.
  - pose proof (Qlt_floor (x + 0.5)) as H.
    rewrite inject_Z_plus in H. change (inject_Z 1) with 1 in H. Lqa.lra.
  - apply Qfloor_le.
Qed.

Lemma Math_round_nearest (x : Q) : Qabs (Math_round x - x) <= 0.5.
Proof.
  destruct (Math_round_bounds x). apply Qabs_Qle_condition. split; Lqa.lra.
Qed.

Lemma Math_round_mono (x y : Q) : x <= y -> Math_round x <= Math_round y.
Proof.
  intro H. unfold Math_round. rewrite <- Zle_Qle.
  apply Qfloor_resp_le. Lqa.lra.
Qed.

(** The monotonicity lemmas of the development, for [auto with monotone]. *)
Create HintDb monotone.
#[local] Hint Resolve Math_max_mono Math_round_mono : monotone.

Lemma Math_round_integer (z : Z) : Math_round (inject_Z z) = inject_Z z.
Proof.
  unfold Math_round. f_equal.
  assert (Hlo : (z <= Qfloor (inject_Z z + 0.5))%Z).
  { rewrite <- (Qfloor_Z z) at 1. apply Qfloor_resp_le. Lqa.lra. }
  assert (Hhi : (Qfloor (inject_Z z + 0.5) < z + 1)%Z).
  { rewrite Zlt_Qlt. eapply Qle_lt_trans; [apply Qfloor_le|].
    rewrite inject_Z_plus. change (inject_Z 1) with 1. Lqa.lra. }
  lia.
Qed.

(** ** [roundScore] *)

Lemma roundScore_football (s : Q) (sport : string) :
  sport = "nfl" \/ sport = "cfb" \/ sport = "college-football" ->
  roundScore s sport =
    if s <=? 2 then 0
    else if (s >? 2) && (s <? 4.5) then 3
    else if (s >=? 4.5) && (s <? 6) then 6
    else Math_round s.
Proof. intros [-> | [-> | ->]]; reflexivity. Qed.

Lemma roundScore_other (s : Q) (sport : string) :
  sport <> "nfl" -> sport <> "cfb" -> sport <> "college-football" ->
  roundScore s sport = Math_round s.
Proof.
  intros H1 H2 H3. unfold roundScore.
  apply String.eqb_neq in H1, H2, H3.
  unfold strict_eq, StrictEq_string. now rewrite H1, H2, H3.
Qed.

(** Either branch of [roundScore], by the sport code. *)
Lemma roundScore_cases (s : Q) (sport : string) :
  roundScore s sport = roundScore s "nfl" \/ roundScore s sport = Math_round s.
Proof.
  unfold roundScore.
  destruct ((sport === "cfb") || (sport === "nfl") || (sport === "college-football"));
    [left | right]; reflexivity.
Qed.

Lemma roundScore_nfl_mono (x y : Q) : x <= y -> roundScore x "nfl" <= roundScore y "nfl".
Proof.
  intro H.
  rewrite !(roundScore_football _ "nfl") by auto.
  pose proof (Math_round_mono x y H) as Hr.
  assert (H6 : forall z, 6 <= z -> 6 <= Math_round z).
  { intros z Hz. change 6 with (inject_Z 6). rewrite <- (Math_round_integer 6).
    apply Math_round_mono. exact Hz. }
  destruct (x <=? 2) eqn:X1; [| destruct ((x >? 2) && (x <? 4.5)) eqn:X2;
    [| destruct ((x >=? 4.5) && (x <? 6)) eqn:X3]];
  (destruct (y <=? 2) eqn:Y1; [| destruct ((y >? 2) && (y <? 4.5)) eqn:Y2;
    [| destruct ((y >=? 4.5) && (y <? 6)) eqn:Y3]]);
  js_tests;
  repeat match goal with H : _ \/ _ |- _ => destruct H end;
  js_tests;
  try Lqa.lra;
  try (assert (6 <= y) by Lqa.lra; pose proof (H6 y); Lqa.lra).
Qed.

Lemma roundScore_mono (sport : string) (x y : Q) :
  x <= y -> roundScore x sport <= roundScore y sport.
Proof.
  intro H. unfold roundScore.
  destruct ((sport === "cfb") || (sport === "nfl") || (sport === "college-football")).
  - apply (roundScore_nfl_mono x y H).
  - auto with monotone.
Qed.

#[local] Hint Resolve roundScore_mono : monotone.

(** C5 -- Football score rounding.  For a football code (['nfl'], ['cfb'],
    ['college-football']) [roundScore] sends a score of at most 2 to 0, a
    score strictly between 2 and 4.5 to 3, a score from 4.5 up to but not
    including 6 to 6, and every other score (6 or more) to [Math.round] of
    it; for every other sport code it returns [Math.round] of the score.
    [Math.round] is an integer at distance at most one half.  The five rows
    of the rounding table hold. *)
Theorem roundScore_spec (s : Q) (sport : string) :
  (sport = "nfl" \/ sport = "cfb" \/ sport = "college-football" ->
     (s <= 2 -> roundScore s sport = 0) /\
     (2 < s /\ s < 4.5 -> roundScore s sport = 3) /\
     (4.5 <= s /\ s < 6 -> roundScore s sport = 6) /\
     (6 <= s -> roundScore s sport = Math_round s)) /\
  (sport <> "nfl" /\ sport <> "cfb" /\ sport <> "college-football" ->
     roundScore s sport = Math_round s) /\
  ((exists z : Z, Math_round s = inject_Z z) /\ Qabs (Math_round s - s) <= 0.5) /\
  roundScore 1.9 "nfl" = 0 /\
  roundScore 3.0 "nfl" = 3 /\
  roundScore 4.4 "nfl" = 3 /\
  roundScore 5.9 "nfl" = 6 /\
  roundScore 10.2 "nfl" = 10.
Proof.
  split; [| split; [| split]].
  - intro Hsport. rewrite (roundScore_football s sport Hsport).
    repeat split.
    + intro H. apply js_le_iff in H. now rewrite H.
    + intros [H1 H2].
      assert (E1 : (s <=? 2) = false) by now apply js_le_false_iff.
      apply js_lt_iff in H1, H2. now rewrite E1, H1, H2.
    + intros [H1 H2].
      assert (E1 : (s <=? 2) = false) by (apply js_le_false_iff; Lqa.lra).
      assert (E2 : (s <? 4.5) = false) by now apply js_lt_false_iff.
      apply js_le_iff in H1. apply js_lt_iff in H2.
      now rewrite E1, E2, andb_false_r, H1, H2.
    + intro H.
      assert (E1 : (s <=? 2) = false) by (apply js_le_false_iff; Lqa.lra).
      assert (E2 : (s <? 4.5) = false) by (apply js_lt_false_iff; Lqa.lra).
      assert (E3 : (s <? 6) = false) by now apply js_lt_false_iff.
      now rewrite E1, E2, E3, !andb_false_r.
  - intros (H1 & H2 & H3). now apply roundScore_other.
  - split.
    + exists (Qfloor (s + 0.5)). reflexivity.
    + apply Math_round_nearest.
  - repeat split; reflexivity.
Qed.

(** The same table for the other two football codes, and the plain rounding
    of a basketball score. *)
Example roundScore_examples :
  roundScore 1.9 "cfb" = 0 /\ roundScore 4.5 "college-football" = 6 /\
  roundScore 6 "nfl" = 6 /\ roundScore 2 "nfl" = 0 /\
  roundScore 1.9 "nba" = 2 /\ roundScore 4.4 "college-basketball" = 4 /\
  roundScore 101.5 "nba" = 102 /\ roundScore (-0.3) "nba" = 0.
Proof. repeat split; reflexivity. Qed.

(** ** The rating projection *)

(** Rewrites the divisions by a literal into multiplications, which is the
    form linear arithmetic on [Q] reads. *)
Ltac div_literals :=
  unfold newRange, Qdiv in *;
  change (/ 100) with (1 # 100) in *;
  change (/ 39) with (1 # 39) in *;
  change (/ (99 - 60)) with (1 # 39) in *.

Lemma rounding_to_cents (x : Q) :
  twoDecimals (Math_round (x * 100) / 100)
  /\ Qabs (Math_round (x * 100) / 100 - x) <= 0.005.
Proof.
  split.
  - exists (Qfloor (x * 100 + 0.5)). reflexivity.
  - destruct (Math_round_bounds (x * 100)) as [Hlo Hhi].
    apply Qabs_Qle_condition. div_literals. split; Lqa.lra.
Qed.

Lemma rounding_to_cents_mono (x y : Q) :
  x <= y -> Math_round (x * 100) / 100 <= Math_round (y * 100) / 100.
Proof.
  intro H. assert (Hr : Math_round (x * 100) <= Math_round (y * 100))
    by (apply Math_round_mono; Lqa.lra).
  div_literals. Lqa.lra.
Qed.

Lemma projectionBySpec_step (g g0 r0 range : Q) :
  projectionBySpec (g + 1) g0 r0 range - projectionBySpec g g0 r0 range == range / 39.
Proof. unfold projectionBySpec. field. Qed.


(** The scenario of the specification: an away offence of grade 80 and rating
    10 moved to 90, with an offensive range of 20, is rated 15.13. *)
Example rating_projection_scenario :
  let o := sampleRatings in
  currentAwayOff o 90 == 590 # 39 /\ roundedAwayOff o 90 == 15.13.
Proof. split; reflexivity. Qed.

(** ** The four slider rules *)

Section SliderRuleProperties.

Variable o : OriginalRatings.t.
Variables awayOff awayDef homeOff homeDef : Q.
Variable sport : string.
Variables originalAwayScore originalHomeScore : Q.

(** The four rules and the two scores at the variables of the section. *)
Local Abbreviation awayOffR := (awayOffRule o awayOff homeDef sport originalAwayScore).
Local Abbreviation homeOffR := (homeOffRule o awayDef homeOff sport originalHomeScore).
Local Abbreviation awayDefR := (awayDefRule o awayDef homeOff sport originalHomeScore).
Local Abbreviation homeDefR := (homeDefRule o awayOff homeDef sport originalAwayScore).
Local Abbreviation scores :=
  (sliderScores o awayOff awayDef homeOff homeDef sport originalAwayScore originalHomeScore).

(** The score a rule of the away side writes, and the one a rule of the home
    side writes. *)
Local Abbreviation awayFormula :=
  (Math_max 0 (roundScore
     (originalAwayScore
      + (roundedAwayOff o awayOff - roundedHomeDef o homeDef + hfa o
         - calculatedOriginalAway o)) sport)).
Local Abbreviation homeFormula :=
  (Math_max 0 (roundScore
     (originalHomeScore
      + (roundedHomeOff o homeOff - roundedAwayDef o awayDef + hfa o
         - calculatedOriginalHome o)) sport)).

Lemma awayOffRule_eq (s : Scores) :
  awayOffR s = if awayOffChanged o awayOff then mkScores awayFormula (homeScore s) else s.
Proof.
  unfold awayOffRule, awayOffChanged.
  destruct (awayOff === OriginalRatings.awayOffensiveNumericGrade o); reflexivity.
Qed.

Lemma homeOffRule_eq (s : Scores) :
  homeOffR s = if homeOffChanged o homeOff then mkScores (awayScore s) homeFormula else s.
Proof.
  unfold homeOffRule, homeOffChanged.
  destruct (homeOff === OriginalRatings.homeOffensiveNumericGrade o); reflexivity.
Qed.

Lemma awayDefRule_eq (s : Scores) :
  awayDefR s = if awayDefChanged o awayDef then mkScores (awayScore s) homeFormula else s.
Proof.
  unfold awayDefRule, awayDefChanged.
  destruct (awayDef === OriginalRatings.awayDefensiveNumericGrade o); reflexivity.
Qed.

Lemma homeDefRule_eq (s : Scores) :
  homeDefR s = if homeDefChanged o homeDef then mkScores awayFormula (homeScore s) else s.
Proof.
  unfold homeDefRule, homeDefChanged.
  destruct (homeDef === OriginalRatings.homeDefensiveNumericGrade o); reflexivity.
Qed.

(** The away score after the four rules: the formula as soon as one of the
    two sliders of the away side is off its baseline, the baseline score
    otherwise. *)
Lemma sliderScores_away :
  awayScore scores =
    if awayOffChanged o awayOff || homeDefChanged o homeDef then awayFormula
    else originalAwayScore.
Proof.
  unfold sliderScores.
  rewrite homeDefRule_eq, awayDefRule_eq, homeOffRule_eq, awayOffRule_eq.
  destruct (awayOffChanged o awayOff), (homeOffChanged o homeOff),
    (awayDefChanged o awayDef), (homeDefChanged o homeDef); reflexivity.
Qed.

Lemma sliderScores_home :
  homeScore scores =
    if homeOffChanged o homeOff || awayDefChanged o awayDef then homeFormula
    else originalHomeScore.
Proof.
  unfold sliderScores.
  rewrite homeDefRule_eq, awayDefRule_eq, homeOffRule_eq, awayOffRule_eq.
  destruct (awayOffChanged o awayOff), (homeOffChanged o homeOff),
    (awayDefChanged o awayDef), (homeDefChanged o homeDef); reflexivity.
Qed.

(** C10 -- Overlapping rules agree.  When both the home-offence grade and
    the away-defence grade are off their baselines, the home-offence rule and
    the away-defence rule write the same home score: applied to any pair of
    scores they give the same pair, in either order or alone, and the home
    score the effect ends with is the one either rule gives on the baseline
    scores. *)
Theorem overlapping_home_rules_agree (s : Scores) :
  homeOffChanged o homeOff = true ->
  awayDefChanged o awayDef = true ->
  homeOffR s = awayDefR s
  /\ awayDefR (homeOffR s) = homeOffR (awayDefR s)
  /\ awayDefR (homeOffR s) = homeOffR s
  /\ homeScore (homeOffR s) = homeFormula
  /\ homeScore scores
     = homeScore (homeOffR (mkScores originalAwayScore originalHomeScore))
  /\ homeScore scores
     = homeScore (awayDefR (mkScores originalAwayScore originalHomeScore)).
Proof.
  intros Hoff Hdef.
  rewrite sliderScores_home, !homeOffRule_eq, !awayDefRule_eq, Hoff, Hdef.
  repeat split; reflexivity.
Qed.

(** The same on the away side, for the away-offence and the home-defence
    rules. *)
Lemma overlapping_away_rules_agree (s : Scores) :
  awayOffChanged o awayOff = true ->
  homeDefChanged o homeDef = true ->
  awayOffR s = homeDefR s /\ homeDefR (awayOffR s) = awayOffR (homeDefR s).
Proof.
  intros Hoff Hdef.
  rewrite !homeDefRule_eq, !awayOffRule_eq, Hoff, Hdef.
  split; reflexivity.
Qed.

End SliderRuleProperties.

(** Both home-side sliders moved, on the scenario of the specification. *)
Lemma overlapping_home_rules_agree_witness :
  let o := sampleRatings in
  let s := mkScores 17 24 in
  homeOffRule o 70 90 "nfl" 24 s = awayDefRule o 70 90 "nfl" 24 s
  /\ homeScore (sliderScores o 80 70 90 78 "nfl" 17 24) = 31.
Proof.
  intros o s.
  destruct (overlapping_home_rules_agree o 80 70 90 78 "nfl" 17 24 s
              eq_refl eq_refl) as (H1 & _).
  split; [exact H1 | reflexivity].
Defined.

(** ** The scores after the rules *)

Lemma roundScore_integer (x : Q) (sport : string) :
  exists z : Z, roundScore x sport = inject_Z z.
Proof.
  unfold roundScore.
  destruct ((sport === "cfb") || (sport === "nfl") || (sport === "college-football"));
    [destruct (x <=? 2); [exists 0%Z; reflexivity |];
     destruct ((x >? 2) && (x <? 4.5)); [exists 3%Z; reflexivity |];
     destruct ((x >=? 4.5) && (x <? 6)); [exists 6%Z; reflexivity |] |];
    exists (Qfloor (x + 0.5)); reflexivity.
Qed.

(** Numbers that JavaScript cannot tell apart round to the same score. *)
Lemma Math_round_compat (x y : Q) : x == y -> Math_round x = Math_round y.
Proof.
  intro H. unfold Math_round. f_equal. apply Qfloor_comp. now rewrite H.
Qed.

Lemma roundScore_compat (x y : Q) (sport : string) :
  x == y -> roundScore x sport = roundScore y sport.
Proof.
  intro H.
  assert (Hxy : roundScore x sport <= roundScore y sport)
    by (apply roundScore_mono; rewrite H; apply Qle_refl).
  assert (Hyx : roundScore y sport <= roundScore x sport)
    by (apply roundScore_mono; rewrite H; apply Qle_refl).
  destruct (roundScore_integer x sport) as [zx Hx], (roundScore_integer y sport) as [zy Hy].
  rewrite Hx, Hy in *. rewrite <- Zle_Qle in Hxy, Hyx. f_equal. lia.
Qed.

Lemma recomputedResult_away (o : OriginalRatings.t) (g1 g2 g3 g4 : Q) (code : string)
  (a h : Q) :
  away_score (recomputedResult o g1 g2 g3 g4 code a h)
  = awayScore (sliderScores o g1 g2 g3 g4 code a h).
Proof. reflexivity. Qed.

Lemma recomputedResult_home (o : OriginalRatings.t) (g1 g2 g3 g4 : Q) (code : string)
  (a h : Q) :
  home_score (recomputedResult o g1 g2 g3 g4 code a h)
  = homeScore (sliderScores o g1 g2 g3 g4 code a h).
Proof. reflexivity. Qed.

(** The scores that rounding and flooring return as they are: the integers
    from 0 on, without 1, 2, 4 and 5 on a football code. *)
Lemma stable_score_iff (a : Q) (code : string) :
  stableScore a code <->
  exists n : Z,
    (0 <= n)%Z /\ a == inject_Z n
    /\ ((code === "cfb") || (code === "nfl") || (code === "college-football") = true ->
        n <> 1%Z /\ n <> 2%Z /\ n <> 4%Z /\ n <> 5%Z).
Proof.
  unfold stableScore.
  assert (Hmax : forall z : Z, Math_max 0 (inject_Z z) = inject_Z (Z.max 0 z)).
  { intro z. unfold Math_max. destruct (0 <=? inject_Z z) eqn:E; js_tests.
    - change 0 with (inject_Z 0) in E. rewrite <- Zle_Qle in E.
      now rewrite Z.max_r.
    - change 0 with (inject_Z 0) in E. rewrite <- Zlt_Qlt in E.
      rewrite Z.max_l by lia. reflexivity. }
  split.
  - intro Hstable.
    destruct (roundScore_integer a code) as [z Hz].
    rewrite Hz, Hmax in Hstable. symmetry in Hstable.
    exists (Z.max 0 z). split; [lia |]. split; [exact Hstable |].
    intro Hfoot.
    assert (Hrs : roundScore a code = roundScore (inject_Z (Z.max 0 z)) "nfl").
    { rewrite (roundScore_compat _ _ code Hstable). unfold roundScore.
      now rewrite Hfoot. }
    rewrite Hz in Hrs.
    repeat split; intro Hn; rewrite Hn in Hrs; vm_compute in Hrs;
      injection Hrs as Hrs; rewrite Hrs in Hn; discriminate Hn.
  - intros (n & Hn & Ha & Hfoot).
    rewrite (roundScore_compat _ _ code Ha), Ha.
    assert (Hround : Math_max 0 (Math_round (inject_Z n)) == inject_Z n)
      by (rewrite Math_round_integer, Hmax, Z.max_r by exact Hn; reflexivity).
    unfold roundScore.
    destruct ((code === "cfb") || (code === "nfl") || (code === "college-football"));
      [| exact Hround].
    destruct (Hfoot eq_refl) as (N1 & N2 & N4 & N5).
    assert (Hcases : n = 0%Z \/ n = 3%Z \/ (6 <= n)%Z) by lia.
    destruct Hcases as [-> | [-> | H6]]; [reflexivity | reflexivity |].
    assert (H6q : 6 <= inject_Z n)
      by (change 6 with (inject_Z 6); now rewrite <- Zle_Qle).
    assert (E1 : (inject_Z n <=? 2) = false) by (apply js_le_false_iff; Lqa.lra).
    assert (E2 : (inject_Z n <? 4.5) = false) by (apply js_lt_false_iff; Lqa.lra).
    assert (E3 : (inject_Z n <? 6) = false) by (apply js_lt_false_iff; Lqa.lra).
    rewrite E1, E2, E3, !andb_false_r. exact Hround.
Qed.

(** Such a score absorbs a hundredth: the rounding and the floor return it
    for every number within 0.01 of it. *)
Lemma stable_score_nearby (a d : Q) (code : string) :
  stableScore a code -> - 0.01 <= d -> d <= 0.01 ->
  Math_max 0 (roundScore (a + d) code) == a.
Proof.
  intros Hstable Hlo Hhi.
  apply stable_score_iff in Hstable. destruct Hstable as (n & Hn & Ha & Hfoot).
  set (x := a + d).
  assert (Hx1 : inject_Z n - 0.01 <= x) by (subst x; Lqa.lra).
  assert (Hx2 : x <= inject_Z n + 0.01) by (subst x; Lqa.lra).
  assert (Hn0 : 0 <= inject_Z n)
    by (change 0 with (inject_Z 0); now rewrite <- Zle_Qle).
  assert (Hround : Math_round x = inject_Z n).
  { unfold Math_round. f_equal.
    assert (H1 : (n <= Qfloor (x + 0.5))%Z).
    { rewrite <- (Qfloor_Z n) at 1. apply Qfloor_resp_le. Lqa.lra. }
    assert (H2 : (Qfloor (x + 0.5) < n + 1)%Z).
    { rewrite Zlt_Qlt. eapply Qle_lt_trans; [apply Qfloor_le |].
      rewrite inject_Z_plus. change (inject_Z 1) with 1. Lqa.lra. }
    lia. }
  assert (Hmax : Math_max 0 (inject_Z n) == a)
    by (rewrite (Math_max_of_le 0 (inject_Z n) Hn0); now symmetry).
  unfold roundScore.
  destruct ((code === "cfb") || (code === "nfl") || (code === "college-football"));
    [| now rewrite Hround].
  destruct (Hfoot eq_refl) as (N1 & N2 & N4 & N5).
  assert (Hcases : n = 0%Z \/ n = 3%Z \/ (6 <= n)%Z) by lia.
  destruct Hcases as [E | [E | H6]].
  - subst n. change (inject_Z 0) with 0 in *.
    assert (E1 : (x <=? 2) = true) by (apply js_le_iff; Lqa.lra).
    now rewrite E1.
  - subst n. change (inject_Z 3) with 3 in *.
    assert (E1 : (x <=? 2) = false) by (apply js_le_false_iff; Lqa.lra).
    assert (E2 : (x >? 2) = true) by (apply js_lt_iff; Lqa.lra).
    assert (E3 : (x <? 4.5) = true) by (apply js_lt_iff; Lqa.lra).
    now rewrite E1, E2, E3.
  - assert (H6q : 6 <= inject_Z n)
      by (change 6 with (inject_Z 6); now rewrite <- Zle_Qle).
    assert (E1 : (x <=? 2) = false) by (apply js_le_false_iff; Lqa.lra).
    assert (E2 : (x <? 4.5) = false) by (apply js_lt_false_iff; Lqa.lra).
    assert (E3 : (x >=? 4.5) = true) by (apply js_le_iff; Lqa.lra).
    rewrite E1, E2, E3, andb_false_r. cbn [andb].
    destruct (x <? 6) eqn:E4; [| now rewrite Hround].
    apply js_lt_iff in E4.
    assert (E6 : n = 6%Z).
    { assert (Hlt : inject_Z n < inject_Z 7)
        by (change (inject_Z 7) with 7; Lqa.lra).
      rewrite <- Zlt_Qlt in Hlt. lia. }
    subst n. exact Hmax.
Qed.


Section SliderScoreProperties.

Variable o : OriginalRatings.t.
Variables awayDef homeOff homeDef : Q.
Variable sport : string.
Variables originalAwayScore originalHomeScore : Q.

(** The scores and the result the effect builds, as functions of the
    away-offence grade, the other three sliders being held where the section
    has them. *)
Local Abbreviation scoresAt awayOff :=
  (sliderScores o awayOff awayDef homeOff homeDef sport originalAwayScore originalHomeScore).
Local Abbreviation resultAt awayOff :=
  (recomputedResult o awayOff awayDef homeOff homeDef sport
     originalAwayScore originalHomeScore).

(** The score the away-side rules write does not decrease with the
    away-offence grade, the offensive range being a width. *)
Lemma away_formula_monotone (g1 g2 : Q) :
  0 <= OriginalRatings.offensiveRange o ->
  g1 <= g2 ->
  Math_max 0 (roundScore
    (originalAwayScore
     + (roundedAwayOff o g1 - roundedHomeDef o homeDef + hfa o - calculatedOriginalAway o))
    sport)
  <= Math_max 0 (roundScore
    (originalAwayScore
     + (roundedAwayOff o g2 - roundedHomeDef o homeDef + hfa o - calculatedOriginalAway o))
    sport).
Proof.
  intros Hrange Hg.
  assert (Hr : roundedAwayOff o g1 <= roundedAwayOff o g2).
  { apply rounding_to_cents_mono. unfold currentAwayOff.
    assert (Hm : (g1 - OriginalRatings.awayOffensiveNumericGrade o)
                   * OriginalRatings.offensiveRange o
                 <= (g2 - OriginalRatings.awayOffensiveNumericGrade o)
                   * OriginalRatings.offensiveRange o)
      by (apply Qmult_le_compat_r; [Lqa.lra | exact Hrange]).
    div_literals. Lqa.lra. }
  assert (Hsum :
    originalAwayScore
    + (roundedAwayOff o g1 - roundedHomeDef o homeDef + hfa o - calculatedOriginalAway o)
    <= originalAwayScore
    + (roundedAwayOff o g2 - roundedHomeDef o homeDef + hfa o - calculatedOriginalAway o))
    by Lqa.lra.
  auto with monotone.
Qed.

(** Both scores coming from the rules, the away score does not decrease
    with the away-offence grade. *)
Lemma away_offence_monotone_rules (g1 g2 : Q) :
  0 <= OriginalRatings.offensiveRange o ->
  g1 < g2 ->
  homeDefChanged o homeDef = true
  \/ (awayOffChanged o g1 = true /\ awayOffChanged o g2 = true) ->
  awayScore (scoresAt g1) <= awayScore (scoresAt g2).
Proof.
  intros Hrange Hg Hrules.
  rewrite !sliderScores_away.
  assert (E : forall g, (g = g1 \/ g = g2) ->
            awayOffChanged o g || homeDefChanged o homeDef = true).
  { intros g Hg'. destruct Hrules as [-> | [H1 H2]].
    - apply orb_true_r.
    - destruct Hg' as [-> | ->]; [rewrite H1 | rewrite H2]; reflexivity. }
  rewrite (E g1), (E g2) by auto.
  apply away_formula_monotone; [exact Hrange | Lqa.lra].
Qed.

(** At the baseline grades the rules would write the baseline score, when
    it is a score the rounding returns as it is: each of the two ratings read
    is within 0.005 of its baseline rating, whatever the decimals of that
    rating. *)
Lemma away_formula_at_baseline (g : Q) :
  awayOffChanged o g = false ->
  homeDefChanged o homeDef = false ->
  stableScore originalAwayScore sport ->
  Math_max 0 (roundScore
    (originalAwayScore
     + (roundedAwayOff o g - roundedHomeDef o homeDef + hfa o - calculatedOriginalAway o))
    sport)
  == originalAwayScore.
Proof.
  intros Hoff Hdef Hstable.
  apply strict_neq_false in Hoff, Hdef.
  assert (Ea : currentAwayOff o g == OriginalRatings.awayOffensiveRating o)
    by (unfold currentAwayOff, newRange; rewrite Hoff; field).
  assert (Ed : currentHomeDef o homeDef == OriginalRatings.homeDefensiveRating o)
    by (unfold currentHomeDef, newRange; rewrite Hdef; field).
  destruct (rounding_to_cents (currentAwayOff o g)) as [_ Ha].
  destruct (rounding_to_cents (currentHomeDef o homeDef)) as [_ Hd].
  apply Qabs_Qle_condition in Ha, Hd.
  fold (roundedAwayOff o g) in Ha. fold (roundedHomeDef o homeDef) in Hd.
  apply stable_score_nearby; [exact Hstable | |];
    unfold calculatedOriginalAway; Lqa.lra.
Qed.

(** With such a baseline score the away score does not decrease with the
    away-offence grade, the baseline grade included. *)
Lemma away_offence_monotone_stable_baseline (g1 g2 : Q) :
  0 <= OriginalRatings.offensiveRange o ->
  stableScore originalAwayScore sport ->
  g1 < g2 ->
  awayScore (scoresAt g1) <= awayScore (scoresAt g2).
Proof.
  intros Hrange Hstable Hg.
  pose proof (away_formula_monotone g1 g2 Hrange (Qlt_le_weak _ _ Hg)) as Hmono.
  rewrite !sliderScores_away.
  destruct (homeDefChanged o homeDef) eqn:Hdef; [now rewrite !orb_true_r |].
  rewrite !orb_false_r.
  destruct (awayOffChanged o g1) eqn:E1, (awayOffChanged o g2) eqn:E2.
  - exact Hmono.
  - pose proof (away_formula_at_baseline g2 E2 Hdef Hstable) as H2.
    eapply Qle_trans; [exact Hmono | apply Qle_lteq; right; exact H2].
  - pose proof (away_formula_at_baseline g1 E1 Hdef Hstable) as H1.
    eapply Qle_trans; [apply Qle_lteq; right; symmetry; exact H1 | exact Hmono].
  - apply Qle_refl.
Qed.


(** With both sliders of a side on their baseline grades the rules leave the
    baseline score of that side as it is, whatever the other two sliders do. *)
Lemma away_side_at_baseline (awayOff : Q) :
  awayOffChanged o awayOff = false ->
  homeDefChanged o homeDef = false ->
  awayScore (scoresAt awayOff) = originalAwayScore.
Proof. intros H1 H2. now rewrite sliderScores_away, H1, H2. Qed.

Lemma home_side_at_baseline (awayOff : Q) :
  homeOffChanged o homeOff = false ->
  awayDefChanged o awayDef = false ->
  homeScore (scoresAt awayOff) = originalHomeScore.
Proof. intros H1 H2. now rewrite sliderScores_home, H1, H2. Qed.

End SliderScoreProperties.


(** The baseline 17 of the sample page is a score the rounding returns as it
    is; a football baseline of 1, 2, 4 or 5 is not. *)
Example stableScore_examples :
  stableScore 17 "nfl"
  /\ ~ stableScore 1 "nfl" /\ ~ stableScore 2 "nfl"
  /\ ~ stableScore 4 "nfl" /\ ~ stableScore 5 "nfl"
  /\ stableScore 1 "nba".
Proof. repeat split; try reflexivity; intro H; discriminate H. Qed.


(** ** The away-offence rule, in binary64 *)

(** A number above zero is not below it. *)
Lemma above_zero_not_below (x : float) : (0 <? x)%float = true -> (x <? 0)%float = false.
Proof.
  rewrite !FloatAxioms.ltb_spec. change (Prim2SF 0) with (S754_zero false).
  destruct (Prim2SF x) as [s | s | | s m e]; cbn; try discriminate;
    destruct s; cbn; congruence.
Qed.

(** [Math.max(0, x)] is never below zero, whatever [x] is ([NaN] included,
    which is below nothing). *)
Lemma Math_max_zero_not_negative (x : float) : (Binary64.Math_max 0 x <? 0)%float = false.
Proof.
  unfold Binary64.Math_max.
  change (is_nan 0) with false. cbn [orb].
  destruct (is_nan x); [reflexivity |].
  destruct (0 <? x)%float eqn:E1; [now apply above_zero_not_below |].
  destruct (x <? 0)%float eqn:E2; [reflexivity |].
  change (get_sign 0) with false. reflexivity.
Qed.

Section AwayOffenceRule.

Variable o : Binary64.OriginalRatings.t.
Variables awayOff awayDef homeOff homeDef : float.
Variable sport : string.
Variables originalAwayScore originalHomeScore : float.

Local Abbreviation scores :=
  (Binary64.sliderScores o awayOff awayDef homeOff homeDef sport
     originalAwayScore originalHomeScore).

(** The score a rule of the away side writes, with the operations of the
    source in their order. *)
Local Abbreviation awayFormula :=
  (Binary64.Math_max 0
     (Binary64.roundScore
        (originalAwayScore
         + (Binary64.roundedAwayOff o awayOff - Binary64.roundedHomeDef o homeDef
            + Binary64.hfa o
            - (Binary64.OriginalRatings.awayOffensiveRating o
               - Binary64.OriginalRatings.homeDefensiveRating o + Binary64.hfa o)))
        sport))%float.

Lemma binary64_away_score :
  Binary64.awayScore scores
  = if Binary64.awayOffChanged o awayOff || Binary64.homeDefChanged o homeDef
    then awayFormula else originalAwayScore.
Proof.
  unfold Binary64.sliderScores, Binary64.homeDefRule, Binary64.awayDefRule,
    Binary64.homeOffRule, Binary64.awayOffRule,
    Binary64.awayOffChanged, Binary64.awayDefChanged,
    Binary64.homeOffChanged, Binary64.homeDefChanged, Binary64.calculatedOriginalAway.
  destruct (awayOff === Binary64.OriginalRatings.awayOffensiveNumericGrade o),
    (homeOff === Binary64.OriginalRatings.homeOffensiveNumericGrade o),
    (awayDef === Binary64.OriginalRatings.awayDefensiveNumericGrade o),
    (homeDef === Binary64.OriginalRatings.homeDefensiveNumericGrade o); reflexivity.
Qed.

Lemma binary64_home_score :
  Binary64.homeScore scores = originalHomeScore
  \/ exists x : float, Binary64.homeScore scores = Binary64.Math_max 0 x.
Proof.
  unfold Binary64.sliderScores, Binary64.homeDefRule, Binary64.awayDefRule,
    Binary64.homeOffRule, Binary64.awayOffRule,
    Binary64.awayOffChanged, Binary64.awayDefChanged,
    Binary64.homeOffChanged, Binary64.homeDefChanged.
  destruct (awayOff === Binary64.OriginalRatings.awayOffensiveNumericGrade o),
    (homeOff === Binary64.OriginalRatings.homeOffensiveNumericGrade o),
    (awayDef === Binary64.OriginalRatings.awayDefensiveNumericGrade o),
    (homeDef === Binary64.OriginalRatings.homeDefensiveNumericGrade o);
    cbn; (now left) || (right; eexists; reflexivity).
Qed.

Lemma binary64_home_side_at_baseline :
  Binary64.homeOffChanged o homeOff = false ->
  Binary64.awayDefChanged o awayDef = false ->
  Binary64.homeScore scores = originalHomeScore.
Proof.
  unfold Binary64.sliderScores, Binary64.homeDefRule, Binary64.awayDefRule,
    Binary64.homeOffRule, Binary64.awayOffRule,
    Binary64.awayOffChanged, Binary64.awayDefChanged,
    Binary64.homeOffChanged, Binary64.homeDefChanged.
  intros -> ->.
  destruct (awayOff === Binary64.OriginalRatings.awayOffensiveNumericGrade o),
    (homeDef === Binary64.OriginalRatings.homeDefensiveNumericGrade o); reflexivity.
Qed.

(** C2, as amended -- Away-offence delta rule, in the arithmetic of the
    code.  When the away-offence grade is off its baseline, the away score is
    the baseline away score plus the delta [(currentAwayOff - currentHomeDef
    + hfa) - (baselineAwayOff - baselineHomeDef + hfa)] of the (rounded)
    current ratings against the baseline ratings, passed through [roundScore]
    and floored at 0, every operation being the binary64 one, in the order of
    the source; the home score is the baseline home score when neither slider
    of the home side moved.  The away score is never negative; the home score
    is never negative when the baseline home score is not. *)
Theorem away_offence_delta_rule :
  Binary64.awayOffChanged o awayOff = true ->
  Binary64.awayScore scores = awayFormula
  /\ (Binary64.homeOffChanged o homeOff = false ->
      Binary64.awayDefChanged o awayDef = false ->
      Binary64.homeScore scores = originalHomeScore)
  /\ (Binary64.awayScore scores <? 0)%float = false
  /\ ((originalHomeScore <? 0)%float = false ->
      (Binary64.homeScore scores <? 0)%float = false).
Proof.
  intro Hchanged.
  assert (Haway : Binary64.awayScore scores = awayFormula)
    by (rewrite binary64_away_score, Hchanged; reflexivity).
  split; [exact Haway |].
  split; [apply binary64_home_side_at_baseline |].
  split; [rewrite Haway; apply Math_max_zero_not_negative |].
  intro Hhome.
  destruct binary64_home_score as [-> | [x ->]];
    [exact Hhome | apply Math_max_zero_not_negative].
Qed.

End AwayOffenceRule.

(** The scenario of the specification: baseline 17-24, home-field advantage
    1.25, away offence 80 rated 10, home defence 78 rated 8, offensive range
    20; the away-offence slider at 90 gives 22-24. *)
Lemma away_offence_delta_rule_witness :
  let s := Binary64.sliderScores Binary64.sampleRatings 90 75 82 78 "nfl" 17 24 in
  Binary64.awayScore s = 22%float /\ Binary64.homeScore s = 24%float
  /\ (Binary64.awayScore s <? 0)%float = false
  /\ (Binary64.homeScore s <? 0)%float = false.
Proof.
  intro s.
  destruct (away_offence_delta_rule Binary64.sampleRatings 90 75 82 78 "nfl" 17 24 eq_refl)
    as (Haway & Hhome & Hpositive & Hpositive').
  split; [exact Haway |].
  split; [exact (Hhome eq_refl eq_refl) |].
  split; [exact Hpositive | exact (Hpositive' eq_refl)].
Defined.

(** C2, as stated, fails twice.  First, the score is the one of the
    formula in the arithmetic of the code, not in exact arithmetic: on the
    sample ratings with a football baseline of 2-24, the away offence at 72
    and the home defence at 70, the two rounded ratings are 5.9 and 3.9,
    whose binary64 difference is above 2 by one unit in the last place, so
    that the sum the code rounds is above 2 and the away score is 3, where
    the delta is 0 and the score 0 in exact arithmetic.  Second, a side that
    no rule writes keeps its baseline score as the service gave it: with a
    baseline home score of -3 the home score stays -3 when the away offence
    moves. *)
Lemma away_offence_delta_rule_counterexample :
  (awayScore (sliderScores sampleRatings 72 75 82 70 "nfl" 2 24) = 0
   /\ Binary64.awayScore
        (Binary64.sliderScores Binary64.sampleRatings 72 75 82 70 "nfl" 2 24) = 3%float)
  /\ (Binary64.awayOffChanged Binary64.sampleRatings 90 = true
      /\ Binary64.homeScore
           (Binary64.sliderScores Binary64.sampleRatings 90 75 82 78 "nfl" 17 (-3))
         = (-3)%float
      /\ (Binary64.homeScore
            (Binary64.sliderScores Binary64.sampleRatings 90 75 82 78 "nfl" 17 (-3))
          <? 0)%float = true).
Proof. repeat split; reflexivity. Qed.

(** ** The win probabilities *)

Section WinProbability.

Local Open Scope R_scope.

Lemma clampProbability_bounds (p : R) :
  0.001 <= clampProbability p <= 0.999.
Proof.
  unfold clampProbability. split.
  - apply Rmax_l.
  - apply Rmax_lub; [Lra.lra | apply Rmin_l].
Qed.

(** The clamp, case by case. *)
Lemma clampProbability_cases (p : R) :
  (p < 0.001 -> clampProbability p = 0.001)
  /\ (0.001 <= p <= 0.999 -> clampProbability p = p)
  /\ (0.999 < p -> clampProbability p = 0.999).
Proof.
  unfold clampProbability. repeat split; intro H.
  - rewrite Rmin_right by Lra.lra. apply Rmax_left. Lra.lra.
  - rewrite Rmin_right by Lra.lra. apply Rmax_right. Lra.lra.
  - rewrite Rmin_left by Lra.lra. apply Rmax_right. Lra.lra.
Qed.

Lemma logistic_real (k s : Q) :
  logistic k s = 1 / (1 + exp (- (Q2R k * Q2R s))).
Proof. unfold logistic. now rewrite Q2R_mult, Q2R_opp, Ropp_mult_distr_l. Qed.

(** Before the clamp the probability is strictly between 0 and 1. *)
Lemma logistic_open_interval (k s : Q) : 0 < logistic k s < 1.
Proof.
  unfold logistic.
  pose proof (exp_pos (Q2R (- k * s)%Q)) as He.
  set (e := exp (Q2R (- k * s)%Q)) in *.
  assert (Hinv : 0 < / (1 + e)) by (apply Rinv_0_lt_compat; Lra.lra).
  assert (Heq : (1 + e) * / (1 + e) = 1) by (apply Rinv_r; Lra.lra).
  unfold Rdiv. rewrite Rmult_1_l. split; [exact Hinv | nra].
Qed.

Lemma exp_square (x : R) : exp (2 * x) = exp x * exp x.
Proof. rewrite <- exp_plus. f_equal. Lra.lra. Qed.

(** A lower bound of [exp 8], by five squarings of [1 + 1/4 <= exp (1/4)]. *)
Lemma exp_8_lower : 1211 <= exp 8.
Proof.
  assert (H0 : 1.25 <= exp (1 / 4)).
  { left. replace 1.25 with (1 + 1 / 4) by Lra.lra. apply exp_ineq1. Lra.lra. }
  assert (H1 : 1.56 <= exp (1 / 2)).
  { replace (1 / 2) with (2 * (1 / 4)) by Lra.lra. rewrite exp_square. nra. }
  assert (H2 : 2.43 <= exp 1).
  { replace 1 with (2 * (1 / 2)) at 1 by Lra.lra. rewrite exp_square. nra. }
  assert (H3 : 5.9 <= exp 2).
  { replace 2 with (2 * 1) at 1 by Lra.lra. rewrite exp_square. nra. }
  assert (H4 : 34.8 <= exp 4).
  { replace 4 with (2 * 2) by Lra.lra. rewrite exp_square. nra. }
  replace 8 with (2 * 4) by Lra.lra. rewrite exp_square. nra.
Qed.

(** From [k * spread = 8] on, the clamp cuts the home probability down to
    0.999. *)
Lemma logistic_saturates (k s : Q) :
  (8 <= k * s)%Q -> clampProbability (logistic k s) = 0.999.
Proof.
  intro H8.
  assert (Hx : 8 <= Q2R k * Q2R s).
  { rewrite <- Q2R_mult. replace 8 with (Q2R 8) by (unfold Q2R; simpl; Lra.lra).
    apply Qle_Rle, H8. }
  assert (Hexp : 1211 <= exp (Q2R k * Q2R s)).
  { eapply Rle_trans; [apply exp_8_lower |].
    destruct Hx as [Hx | <-]; [left; apply exp_increasing, Hx | right; reflexivity]. }
  assert (He : exp (- (Q2R k * Q2R s)) <= / 1211).
  { rewrite exp_Ropp. apply Rinv_le_contravar; [Lra.lra | exact Hexp]. }
  pose proof (exp_pos (- (Q2R k * Q2R s))) as Hpos.
  assert (Hp : 0.999 <= logistic k s).
  { rewrite logistic_real.
    set (e := exp (- (Q2R k * Q2R s))) in *.
    replace 0.999 with (/ (1000 / 999)) by (rewrite Rinv_div; Lra.lra).
    unfold Rdiv at 2. rewrite Rmult_1_l.
    apply Rinv_le_contravar; Lra.lra. }
  unfold clampProbability.
  rewrite Rmin_left by exact Hp. apply Rmax_right. Lra.lra.
Qed.

Lemma recomputeSensitivity_sport (s : Sport) :
  Q2R (recomputeSensitivity (sport_code s)) = sensitivityOf s.
Proof. destruct s; unfold Q2R; simpl; Lra.lra. Qed.

Lemma recomputeSensitivity_other (code : string) :
  code <> "nfl"%string -> code <> "college-football"%string ->
  recomputeSensitivity code = 0.13%Q.
Proof.
  intros H1 H2. unfold recomputeSensitivity.
  apply String.eqb_neq in H1, H2.
  unfold strict_eq, StrictEq_string. rewrite H1, H2.
  now destruct ((code =? "nba")%string || (code =? "college-basketball")%string).
Qed.

(** ['cfb'], a football code for [roundScore] and for
    [calculateWinProbability], is not one for the recompute path. *)
Example recomputeSensitivity_cfb :
  recomputeSensitivity "cfb" = 0.13%Q /\ roundScore 1.9 "cfb" = 0%Q.
Proof. split; reflexivity. Qed.

Lemma recomputedResult_scores (o : OriginalRatings.t) (awayOff awayDef homeOff homeDef : Q)
  (code : string) (a h : Q) :
  let r := recomputedResult o awayOff awayDef homeOff homeDef code a h in
  let s := sliderScores o awayOff awayDef homeOff homeDef code a h in
  away_score r = awayScore s /\ home_score r = homeScore s
  /\ spread r = (home_score r - away_score r)%Q
  /\ total r = (away_score r + home_score r)%Q
  /\ home_win_probability r = fst (recomputeWinProbability code (spread r))
  /\ away_win_probability r = snd (recomputeWinProbability code (spread r)).
Proof. repeat split; reflexivity. Qed.

(** C4 -- Win probability in the recompute path.  For the result the
    effect builds on any of the four sports, with [k] 0.15 on the football
    sports and 0.13 on the basketball ones, the home probability is
    [1 / (1 + e^(-k * spread))] clamped to [0.001, 0.999] and the away one is
    1 minus it; a sport code that is none of the two football codes of this
    path gets 0.13. *)
Theorem recompute_win_probability (o : OriginalRatings.t)
  (awayOff awayDef homeOff homeDef : Q) (s : Sport) (a h : Q) :
  let r := recomputedResult o awayOff awayDef homeOff homeDef (sport_code s) a h in
  let k := sensitivityOf s in
  let p := 1 / (1 + exp (- (k * Q2R (spread r)))) in
  home_win_probability r = Rmax 0.001 (Rmin 0.999 p)
  /\ away_win_probability r = 1 - home_win_probability r
  /\ (p < 0.001 -> home_win_probability r = 0.001)
  /\ (0.001 <= p <= 0.999 -> home_win_probability r = p)
  /\ (0.999 < p -> home_win_probability r = 0.999)
  /\ (forall code : string,
        code <> "nfl"%string -> code <> "college-football"%string ->
        recomputeSensitivity code = 0.13%Q).
Proof.
  intros r k p.
  assert (Hhome : home_win_probability r = clampProbability p).
  { change (home_win_probability r)
      with (clampProbability (logistic (recomputeSensitivity (sport_code s)) (spread r))).
    rewrite logistic_real, recomputeSensitivity_sport. reflexivity. }
  destruct (clampProbability_cases p) as (Hlo & Hmid & Hhi).
  rewrite Hhome.
  split; [reflexivity |].
  split; [rewrite <- Hhome; reflexivity |].
  split; [exact Hlo |]. split; [exact Hmid |]. split; [exact Hhi |].
  exact recomputeSensitivity_other.
Qed.

(** C8, as amended -- Probability complementarity.  The two probabilities
    of a recomputed result sum to 1 and both lie in the closed interval
    [0.001, 0.999], hence strictly inside (0, 1). *)
Theorem recomputed_probabilities_complementary (o : OriginalRatings.t)
  (awayOff awayDef homeOff homeDef : Q) (code : string) (a h : Q) :
  let r := recomputedResult o awayOff awayDef homeOff homeDef code a h in
  away_win_probability r + home_win_probability r = 1
  /\ 0.001 <= away_win_probability r <= 0.999
  /\ 0.001 <= home_win_probability r <= 0.999
  /\ 0 < away_win_probability r < 1
  /\ 0 < home_win_probability r < 1.
Proof.
  intro r.
  change (away_win_probability r) with (1 - home_win_probability r).
  change (home_win_probability r)
    with (clampProbability (logistic (recomputeSensitivity code) (spread r))).
  pose proof (clampProbability_bounds (logistic (recomputeSensitivity code) (spread r))).
  repeat split; Lra.lra.
Qed.

(** The helper [calculateWinProbability] ends with the same clamp. *)
Lemma calculateWinProbability_complementary (homeScore awayScore : Q) (code : string) :
  let (home, away) := calculateWinProbability homeScore awayScore code in
  away + home = 1 /\ 0.001 <= away <= 0.999 /\ 0.001 <= home <= 0.999.
Proof.
  unfold calculateWinProbability.
  match goal with |- context [clampProbability ?p] =>
    pose proof (clampProbability_bounds p) end.
  repeat split; Lra.lra.
Qed.

End WinProbability.

(** C8, as stated, fails: a college-football baseline of 7-62 with the away
    offence one grade point above its baseline.  The recomputed score is
    8-62, the spread 54 and [k * spread = 8.1]: the logistic value is above
    0.999 and the clamp returns the bound itself, 0.999, for the home side. *)
Lemma recomputed_probabilities_counterexample :
  let o := sampleRatings in
  let r := recomputedResult o 81 75 82 78 "college-football" 7 62 in
  away_score r = 8 /\ home_score r = 62 /\ spread r == 54
  /\ home_win_probability r = 0.999%R
  /\ ~ (0.001 < away_win_probability r < 0.999
        /\ 0.001 < home_win_probability r < 0.999)%R.
Proof.
  intros o r.
  assert (Hhome : home_win_probability r = 0.999%R).
  { change (home_win_probability r)
      with (clampProbability (logistic 0.15 (spread r))).
    apply logistic_saturates. vm_compute. discriminate. }
  repeat split; try reflexivity; try exact Hhome.
  rewrite Hhome. intros [_ [_ H]]. Lra.lra.
Qed.

(** ** The effect on the state of the page *)

Lemma sport_code_not_empty (s : Sport) : (sport_code s === "") = false.
Proof. destruct s; reflexivity. Qed.

(** One run of the effect on a state with its baseline captured. *)
Lemma recompute_with_baseline (st : PageState) (o : OriginalRatings.t) (a h : Q)
  (sim : SimulationResult) :
  baselineCaptured st o a h ->
  simulationResult st = Some sim ->
  recompute st =
    if slidersAtBaseline st o then
      if (away_score sim !== a) || (home_score sim !== h)
      then setSimulationResult (restoredResult sim a h) st
      else st
    else
      let st' := setCurrentRatingRefs
                   (roundedAwayOff o (awayOffensiveNumericGrade st))
                   (roundedAwayDef o (awayDefensiveNumericGrade st))
                   (roundedHomeOff o (homeOffensiveNumericGrade st))
                   (roundedHomeDef o (homeDefensiveNumericGrade st)) st in
      let r := recomputedResult o
                 (awayOffensiveNumericGrade st) (awayDefensiveNumericGrade st)
                 (homeOffensiveNumericGrade st) (homeDefensiveNumericGrade st)
                 (sport_code (sport st)) a h in
      if (away_score r !== away_score sim) || (home_score r !== home_score sim)
      then setSimulationResult r st'
      else st'.
Proof.
  intros (Ho & Ha & Hh & Haway & Hhome & _) Hsim.
  unfold recompute, slidersAtBaseline.
  rewrite Ho, Hsim, Ha, Hh, sport_code_not_empty.
  destruct (awayTeam st); [| contradiction].
  destruct (homeTeam st); [| contradiction].
  reflexivity.
Qed.

(** C1, as amended -- Round trip.  With the baseline captured and the four
    sliders on their baseline grades, the result displayed after the effect
    has the baseline scores.  When the result displayed before had other
    scores the effect publishes the baseline scores themselves, with the
    spread home minus away, the total away plus home and the probabilities
    displayed before; when it already had the baseline scores the effect
    publishes nothing and the displayed result, its spread and total
    included, stays as it was. *)
Theorem round_trip (st : PageState) (o : OriginalRatings.t) (a h : Q)
  (sim : SimulationResult) :
  baselineCaptured st o a h ->
  simulationResult st = Some sim ->
  slidersAtBaseline st o = true ->
  exists r : SimulationResult,
    simulationResult (recompute st) = Some r
    /\ away_score r == a /\ home_score r == h
    /\ (~ (away_score sim == a /\ home_score sim == h) ->
        away_score r = a /\ home_score r = h
        /\ spread r = h - a /\ total r = a + h
        /\ away_win_probability r = away_win_probability sim
        /\ home_win_probability r = home_win_probability sim)
    /\ (away_score sim == a /\ home_score sim == h -> r = sim /\ recompute st = st).
Proof.
  intros Hbase Hsim Hsliders.
  rewrite (recompute_with_baseline st o a h sim Hbase Hsim), Hsliders.
  destruct (away_score sim !== a) eqn:Ea; [| destruct (home_score sim !== h) eqn:Eh];
    cbn [orb].
  - exists (restoredResult sim a h).
    apply negb_true_iff, Qeq_bool_neq in Ea.
    split; [reflexivity |]. split; [reflexivity |]. split; [reflexivity |].
    split; [intros _; repeat split | intros [H1 H2]; contradiction].
  - exists (restoredResult sim a h).
    apply negb_true_iff, Qeq_bool_neq in Eh.
    split; [reflexivity |]. split; [reflexivity |]. split; [reflexivity |].
    split; [intros _; repeat split | intros [H1 H2]; contradiction].
  - exists sim. apply strict_neq_false in Ea, Eh.
    split; [exact Hsim |]. split; [exact Ea |]. split; [exact Eh |].
    split; [intro Hn; exfalso; apply Hn; split; assumption |].
    intros _. split; reflexivity.
Qed.

Lemma sampleState_baseline : baselineCaptured sampleState sampleRatings 17 24.
Proof. repeat split; discriminate. Qed.

Lemma round_trip_witness :
  exists r : SimulationResult,
    simulationResult (recompute sampleState) = Some r
    /\ away_score r == 17 /\ home_score r == 24.
Proof.
  destruct (simulationResult sampleState) as [sim |] eqn:Hsim; [| discriminate].
  destruct (round_trip sampleState sampleRatings 17 24 sim
              sampleState_baseline Hsim eq_refl) as (r & Hr & Ha & Hh & _).
  exists r. repeat split; assumption.
Defined.

(** C1, as stated, fails on the spread: the page as the response of the
    service leaves it, every slider on its baseline grade.  The displayed
    result has the baseline scores 17 and 24, so the effect publishes
    nothing, and the spread stays the [pointSpread] of the service, -7, not
    24 - 17. *)
Lemma round_trip_counterexample :
  slidersAtBaseline sampleState sampleRatings = true
  /\ exists r : SimulationResult,
       simulationResult (recompute sampleState) = Some r
       /\ away_score r = 17 /\ home_score r = 24
       /\ spread r = -7
       /\ ~ spread r == home_score r - away_score r.
Proof.
  split; [reflexivity |].
  eexists. split; [reflexivity |].
  repeat split. discriminate.
Qed.

(** After the effect the page displays the scores of the four rules, on
    either path: the short-circuit branch is taken when no rule fires, and a
    result that is not published has the scores of the one displayed. *)
Lemma recompute_displays_rule_scores (st : PageState) (o : OriginalRatings.t) (a h : Q) :
  baselineCaptured st o a h ->
  let s := sliderScores o
             (awayOffensiveNumericGrade st) (awayDefensiveNumericGrade st)
             (homeOffensiveNumericGrade st) (homeDefensiveNumericGrade st)
             (sport_code (sport st)) a h in
  exists r : SimulationResult,
    simulationResult (recompute st) = Some r
    /\ away_score r == awayScore s /\ home_score r == homeScore s.
Proof.
  intros Hbase s.
  destruct (simulationResult st) as [sim |] eqn:Hsim;
    [| destruct Hbase as (_ & _ & _ & _ & _ & Hnone); contradiction].
  rewrite (recompute_with_baseline st o a h sim Hbase Hsim).
  destruct (slidersAtBaseline st o) eqn:Hsliders; cbv zeta.
  - unfold slidersAtBaseline in Hsliders.
    repeat (apply andb_true_iff in Hsliders; destruct Hsliders as [Hsliders ?]).
    repeat match goal with H : negb _ = true |- _ => apply negb_true_iff in H end.
    assert (Ha : awayScore s = a) by (apply away_side_at_baseline; assumption).
    assert (Hh : homeScore s = h) by (apply home_side_at_baseline; assumption).
    rewrite Ha, Hh.
    destruct (away_score sim !== a) eqn:Ea; [| destruct (home_score sim !== h) eqn:Eh];
      cbn [orb].
    + eexists. split; [reflexivity | split; apply Qeq_refl].
    + eexists. split; [reflexivity | split; apply Qeq_refl].
    + exists sim. split; [exact Hsim |]. split; apply strict_neq_false; assumption.
  - fold s.
    match goal with |- context [recomputedResult ?o ?g1 ?g2 ?g3 ?g4 ?c ?a ?h] =>
      set (r := recomputedResult o g1 g2 g3 g4 c a h) end.
    change (awayScore s) with (away_score r). change (homeScore s) with (home_score r).
    destruct (away_score r !== away_score sim) eqn:Ea;
      [| destruct (home_score r !== home_score sim) eqn:Eh]; cbn [orb].
    + exists r. split; [reflexivity | split; apply Qeq_refl].
    + exists r. split; [reflexivity | split; apply Qeq_refl].
    + exists sim. split; [exact Hsim |].
      split; symmetry; apply strict_neq_false; assumption.
Qed.

(** ** Snap-back *)

Lemma recompute_preserves (st : PageState) (o : OriginalRatings.t) (a h : Q) :
  baselineCaptured st o a h ->
  baselineCaptured (recompute st) o a h
  /\ forall sl : Slider, sliderGrade sl (recompute st) = sliderGrade sl st.
Proof.
  intros Hbase.
  destruct (simulationResult st) as [sim |] eqn:Hsim;
    [| destruct Hbase as (_ & _ & _ & _ & _ & Hnone); contradiction].
  rewrite (recompute_with_baseline st o a h sim Hbase Hsim).
  destruct Hbase as (Ho & Ha & Hh & Haway & Hhome & Hres).
  destruct (slidersAtBaseline st o); cbv zeta;
    match goal with |- context [if ?c then _ else _] => destruct c end;
    (split; [repeat split; cbn; (assumption || discriminate) | intros []; reflexivity]).
Qed.

Lemma setSlider_preserves (sl : Slider) (g : Q) (st : PageState)
  (o : OriginalRatings.t) (a h : Q) :
  baselineCaptured st o a h ->
  baselineCaptured (setSlider sl g st) o a h
  /\ sliderGrade sl (setSlider sl g st) = g
  /\ forall sl' : Slider, sl' <> sl ->
       sliderGrade sl' (setSlider sl g st) = sliderGrade sl' st.
Proof.
  intros (Ho & Ha & Hh & Haway & Hhome & Hres).
  split; [destruct sl; repeat split; assumption |].
  split; [destruct sl; reflexivity |].
  intros sl' Hneq. destruct sl, sl'; try reflexivity; contradiction.
Qed.

Lemma companion_differs (sl : Slider) : companion sl <> sl.
Proof. destruct sl; discriminate. Qed.

Lemma moveSlider_invariant (sl : Slider) (g : Q) (st : PageState)
  (o : OriginalRatings.t) (a h : Q) :
  baselineCaptured st o a h ->
  baselineCaptured (moveSlider sl g st) o a h
  /\ sliderGrade sl (moveSlider sl g st) = g
  /\ forall sl' : Slider, sl' <> sl ->
       sliderGrade sl' (moveSlider sl g st) = sliderGrade sl' st.
Proof.
  intro Hbase. unfold moveSlider.
  destruct (setSlider_preserves sl g st o a h Hbase) as (Hb & Hg & Hothers).
  destruct (recompute_preserves _ o a h Hb) as (Hb' & Hsame).
  split; [exact Hb' |]. split; [now rewrite Hsame |].
  intros sl' Hneq. rewrite Hsame. now apply Hothers.
Qed.

Lemma moveAlong_invariant (sl : Slider) (path : list Q) (st : PageState)
  (o : OriginalRatings.t) (a h : Q) :
  baselineCaptured st o a h ->
  baselineCaptured (moveAlong sl path st) o a h
  /\ forall sl' : Slider, sl' <> sl ->
       sliderGrade sl' (moveAlong sl path st) = sliderGrade sl' st.
Proof.
  revert st. induction path as [| g path IH]; intros st Hbase.
  - split; [exact Hbase | reflexivity].
  - cbn [moveAlong fold_left].
    destruct (moveSlider_invariant sl g st o a h Hbase) as (Hb & _ & Hothers).
    destruct (IH _ Hb) as (Hb' & Hothers').
    split; [exact Hb' |].
    intros sl' Hneq. unfold moveAlong in Hothers'. rewrite Hothers' by exact Hneq.
    now apply Hothers.
Qed.

Lemma recompute_sport (st : PageState) : sport (recompute st) = sport st.
Proof.
  unfold recompute.
  destruct (originalRatings st), (simulationResult st), (awayTeam st), (homeTeam st);
    try reflexivity.
  rewrite sport_code_not_empty. cbv zeta.
  repeat match goal with |- context [if ?c then _ else _] => destruct c end; reflexivity.
Qed.

Lemma moveAlong_sport (sl : Slider) (path : list Q) (st : PageState) :
  sport (moveAlong sl path st) = sport st.
Proof.
  revert st. induction path as [| g path IH]; intro st; [reflexivity |].
  cbn [moveAlong fold_left]. unfold moveAlong in IH. rewrite IH.
  unfold moveSlider. rewrite recompute_sport. now destruct sl.
Qed.

(** The score of a side, after the four rules, when one of its two sliders
    is on its baseline grade: the baseline score of the side when the other
    slider is on its baseline as well, the score the rule of that other
    slider writes on the baseline scores when it is not. *)
Lemma side_with_a_slider_on_baseline (sl : Slider) (o : OriginalRatings.t)
  (awayOff awayDef homeOff homeDef : Q) (code : string) (a h : Q) :
  let grade sl' :=
    match sl' with
    | AwayOff => awayOff | AwayDef => awayDef | HomeOff => homeOff | HomeDef => homeDef
    end in
  let s := sliderScores o awayOff awayDef homeOff homeDef code a h in
  (grade sl !== baselineGrade sl o) = false ->
  ((grade (companion sl) !== baselineGrade (companion sl) o) = false ->
   affectedSide sl s = affectedBaseline sl a h)
  /\ ((grade (companion sl) !== baselineGrade (companion sl) o) = true ->
      affectedSide sl s
      = affectedSide sl
          (sliderRule (companion sl) o awayOff awayDef homeOff homeDef code a h
             (mkScores a h))).
Proof.
  intros grade s Hsl. subst s grade.
  destruct sl; cbn [companion baselineGrade affectedSide affectedBaseline sliderRule] in *.
  - rewrite sliderScores_away, homeDefRule_eq.
    unfold awayOffChanged, homeDefChanged. rewrite Hsl.
    split; intros ->; reflexivity.
  - rewrite sliderScores_home, homeOffRule_eq.
    unfold awayDefChanged, homeOffChanged. rewrite Hsl, orb_false_r.
    split; intros ->; reflexivity.
  - rewrite sliderScores_home, awayDefRule_eq.
    unfold awayDefChanged, homeOffChanged. rewrite Hsl.
    split; intros ->; reflexivity.
  - rewrite sliderScores_away, awayOffRule_eq.
    unfold awayOffChanged, homeDefChanged. rewrite Hsl, orb_false_r.
    split; intros ->; reflexivity.
Qed.

(** C7, as amended -- Reset snap-back.  With the baseline captured, a
    slider moved through any grades and then back to its baseline grade
    leaves, for the side it affects: the baseline score of that side, when
    the other slider of the side is on its baseline grade; the score that the
    rule of that other slider writes on the baseline scores, when it is not.
    The grades the rule reads are those of the page with the slider put back:
    the moves in between leave no trace. *)
Theorem reset_snap_back (sl : Slider) (path : list Q) (st : PageState)
  (o : OriginalRatings.t) (a h : Q) :
  baselineCaptured st o a h ->
  let back := setSlider sl (baselineGrade sl o) st in
  exists r : SimulationResult,
    simulationResult (moveSlider sl (baselineGrade sl o) (moveAlong sl path st)) = Some r
    /\ (sliderChanged (companion sl) o st = false ->
        affectedScore sl r == affectedBaseline sl a h)
    /\ (sliderChanged (companion sl) o st = true ->
        affectedScore sl r
        == affectedSide sl
             (sliderRule (companion sl) o
                (awayOffensiveNumericGrade back) (awayDefensiveNumericGrade back)
                (homeOffensiveNumericGrade back) (homeDefensiveNumericGrade back)
                (sport_code (sport st)) a h (mkScores a h))).
Proof.
  intros Hbase back.
  destruct (moveAlong_invariant sl path st o a h Hbase) as (Hb & Hothers).
  destruct (setSlider_preserves sl (baselineGrade sl o) _ o a h Hb) as (Hb' & Hg & Hothers').
  destruct (setSlider_preserves sl (baselineGrade sl o) st o a h Hbase) as (_ & Hg0 & Hothers0).
  fold back in Hg0, Hothers0.
  unfold moveSlider.
  set (final := setSlider sl (baselineGrade sl o) (moveAlong sl path st)) in *.
  assert (Hgrades : forall sl', sliderGrade sl' final = sliderGrade sl' back).
  { intro sl'.
    assert (Hcases : sl' = sl \/ sl' <> sl)
      by (destruct sl, sl'; (now left) || (right; discriminate)).
    destruct Hcases as [-> | Hneq]; [now rewrite Hg, Hg0 |].
    now rewrite (Hothers' sl' Hneq), (Hothers sl' Hneq), (Hothers0 sl' Hneq). }
  assert (Hsport : sport final = sport st)
    by (subst final; rewrite <- (moveAlong_sport sl path st); now destruct sl).
  destruct (recompute_displays_rule_scores final o a h Hb') as (r & Hr & Haway & Hhome).
  pose proof (Hgrades AwayOff) as G1. pose proof (Hgrades AwayDef) as G2.
  pose proof (Hgrades HomeOff) as G3. pose proof (Hgrades HomeDef) as G4.
  cbn [sliderGrade] in G1, G2, G3, G4.
  rewrite G1, G2, G3, G4, Hsport in Haway, Hhome.
  pose proof (side_with_a_slider_on_baseline sl o
                (awayOffensiveNumericGrade back) (awayDefensiveNumericGrade back)
                (homeOffensiveNumericGrade back) (homeDefensiveNumericGrade back)
                (sport_code (sport st)) a h) as Hside.
  cbv zeta in Hside.
  assert (Hscore : affectedScore sl r
                   == affectedSide sl
                        (sliderScores o
                           (awayOffensiveNumericGrade back) (awayDefensiveNumericGrade back)
                           (homeOffensiveNumericGrade back) (homeDefensiveNumericGrade back)
                           (sport_code (sport st)) a h))
    by (destruct sl; assumption).
  assert (Hon : (sliderGrade sl back !== baselineGrade sl o) = false)
    by (rewrite Hg0; now rewrite strict_eq_number_refl).
  assert (Hco : sliderGrade (companion sl) back = sliderGrade (companion sl) st)
    by (apply Hothers0, companion_differs).
  exists r. split; [exact Hr |].
  unfold sliderChanged. rewrite <- Hco.
  destruct sl; cbn [sliderGrade companion] in Hon, Hside |- *;
    destruct (Hside Hon) as [Hfirst Hsecond];
    (split; intro Hc; [rewrite <- (Hfirst Hc) | rewrite <- (Hsecond Hc)]; exact Hscore).
Qed.

(** The away offence of the sample page moved to 90, to 65 and back to 80. *)
Lemma reset_snap_back_witness :
  exists r : SimulationResult,
    simulationResult (moveSlider AwayOff 80 (moveAlong AwayOff [90; 65] sampleState)) = Some r
    /\ away_score r == 17.
Proof.
  pose proof (reset_snap_back AwayOff [90; 65] sampleState sampleRatings 17 24
                sampleState_baseline) as H.
  cbv zeta in H. destruct H as (r & Hr & Hfirst & _).
  exists r. split; [exact Hr | exact (Hfirst eq_refl)].
Defined.

(** C7, as stated, fails when the other slider of the side is off its
    baseline: on the sample page with the home defence at 88, the away
    offence moved to 90 and back to its baseline grade 80 leaves an away
    score of 12, the score the home-defence rule computes, not the baseline
    17. *)
Lemma reset_snap_back_counterexample :
  let st := moveSlider HomeDef 88 sampleState in
  let st' := moveSlider AwayOff 80 (moveSlider AwayOff 90 st) in
  baselineGrade AwayOff sampleRatings = 80
  /\ baselineCaptured st sampleRatings 17 24
  /\ exists r : SimulationResult,
       simulationResult st' = Some r /\ away_score r = 12 /\ ~ away_score r == 17.
Proof.
  intros st st'.
  split; [reflexivity |].
  split; [subst st; vm_compute; repeat split; discriminate |].
  subst st' st. vm_compute.
  eexists. split; [reflexivity |]. split; [reflexivity | discriminate].
Qed.

(** ** Team matching *)

Module MatchingFacts.
Import Matching.

(** [find] returns the first element that passes the test. *)
Lemma find_first {A} (f : A -> bool) (l1 : list A) (t : A) (l2 : list A) :
  f t = true ->
  (forall u, In u l1 -> f u = false) ->
  find f (l1 ++ t :: l2)%list = Some t.
Proof.
  intros Ht Hl1. induction l1 as [| u l1 IH]; cbn.
  - now rewrite Ht.
  - rewrite (Hl1 u) by (left; reflexivity).
    apply IH. intros v Hv. apply Hl1. now right.
Qed.

Lemma find_nothing {A} (f : A -> bool) (l : list A) :
  (forall u, In u l -> f u = false) -> find f l = None.
Proof.
  intro H. induction l as [| u l IH]; [reflexivity |]. cbn.
  rewrite (H u) by (left; reflexivity). apply IH. intros v Hv. apply H. now right.
Qed.

Lemma matchesSelected_iff {L : LowerCase} (sel : Team.t) (t : ApiTeam.t) :
  matchesSelected sel t = true <->
  exactName sel t = true \/ lowerName sel t = true
  \/ exactAbbreviation sel t = true \/ lowerAbbreviation sel t = true.
Proof. unfold matchesSelected. rewrite !orb_true_iff. tauto. Qed.

Lemma awayTeamData_lookup {L : LowerCase} teams sel : awayTeamData teams sel = lookup "Away" 0 teams sel.
Proof. reflexivity. Qed.

Lemma homeTeamData_lookup {L : LowerCase} teams sel : homeTeamData teams sel = lookup "Home" 1 teams sel.
Proof. reflexivity. Qed.

Section Lookup.

Context {L : LowerCase}.
Variable v : string.
Variable position : nat.
Variable teams : list ApiTeam.t.
Variable sel : Team.t.

(** First tier: the first element, in array order, that passes any of the
    four name and abbreviation tests. *)
Lemma lookup_first_match (l1 : list ApiTeam.t) (t : ApiTeam.t) (l2 : list ApiTeam.t) :
  teams = (l1 ++ t :: l2)%list ->
  matchesSelected sel t = true ->
  (forall u, In u l1 -> matchesSelected sel u = false) ->
  lookup v position teams sel = Some t.
Proof.
  intros -> Ht Hl1. unfold lookup. now rewrite (find_first _ l1 t l2 Ht Hl1).
Qed.

(** Second tier: no element passes a test, and the first element with the
    venue is taken. *)
Lemma lookup_venue (l1 : list ApiTeam.t) (t : ApiTeam.t) (l2 : list ApiTeam.t) :
  (forall u, In u teams -> matchesSelected sel u = false) ->
  teams = (l1 ++ t :: l2)%list ->
  hasVenue v t = true ->
  (forall u, In u l1 -> hasVenue v u = false) ->
  lookup v position teams sel = Some t.
Proof.
  intros Hnone Hteams Ht Hl1. unfold lookup.
  rewrite (find_nothing _ teams Hnone). subst teams.
  now rewrite (find_first _ l1 t l2 Ht Hl1).
Qed.

(** Third tier: the array position. *)
Lemma lookup_position :
  (forall u, In u teams -> matchesSelected sel u = false) ->
  (forall u, In u teams -> hasVenue v u = false) ->
  lookup v position teams sel = nth_error teams position.
Proof.
  intros Hnone Hvenue. unfold lookup.
  now rewrite (find_nothing _ teams Hnone), (find_nothing _ teams Hvenue).
Qed.

Lemma single_rule_finds_candidate (rule : ApiTeam.t -> bool) (t t' : ApiTeam.t) :
  oneCandidate teams sel ->
  (forall u, rule u = true -> matchesSelected sel u = true) ->
  find (matchesSelected sel) teams = Some t ->
  find rule teams = Some t' ->
  t' = t.
Proof.
  intros Hone Hrule Ht Ht'.
  apply find_some in Ht, Ht'. destruct Ht as [Hin Hm], Ht' as [Hin' Hr].
  apply Hone; auto.
Qed.

Lemma lookup_agrees_with_spec :
  oneCandidate teams sel -> lookup v position teams sel = chainBySpec teams sel v position.
Proof.
  intro Hone. unfold lookup, chainBySpec.
  assert (R1 : forall u, exactName sel u = true -> matchesSelected sel u = true)
    by (intros; apply matchesSelected_iff; auto).
  assert (R2 : forall u, lowerName sel u = true -> matchesSelected sel u = true)
    by (intros; apply matchesSelected_iff; auto).
  assert (R3 : forall u, exactAbbreviation sel u = true -> matchesSelected sel u = true)
    by (intros; apply matchesSelected_iff; auto).
  assert (R4 : forall u, lowerAbbreviation sel u = true -> matchesSelected sel u = true)
    by (intros; apply matchesSelected_iff; auto).
  destruct (find (matchesSelected sel) teams) as [t |] eqn:Hfind.
  - pose proof (single_rule_finds_candidate (exactName sel) t) as S1.
    pose proof (single_rule_finds_candidate (lowerName sel) t) as S2.
    pose proof (single_rule_finds_candidate (exactAbbreviation sel) t) as S3.
    pose proof (single_rule_finds_candidate (lowerAbbreviation sel) t) as S4.
    destruct (find (exactName sel) teams) as [t1 |] eqn:F1;
      [cbn; f_equal; symmetry; now apply (S1 t1) |].
    destruct (find (lowerName sel) teams) as [t2 |] eqn:F2;
      [cbn; f_equal; symmetry; now apply (S2 t2) |].
    destruct (find (exactAbbreviation sel) teams) as [t3 |] eqn:F3;
      [cbn; f_equal; symmetry; now apply (S3 t3) |].
    destruct (find (lowerAbbreviation sel) teams) as [t4 |] eqn:F4;
      [cbn; f_equal; symmetry; now apply (S4 t4) |].
    exfalso. apply find_some in Hfind. destruct Hfind as [Hin Hm].
    apply matchesSelected_iff in Hm.
    pose proof (find_none _ _ F1 t Hin). pose proof (find_none _ _ F2 t Hin).
    pose proof (find_none _ _ F3 t Hin). pose proof (find_none _ _ F4 t Hin).
    intuition congruence.
  - assert (N : forall rule : ApiTeam.t -> bool,
              (forall u, rule u = true -> matchesSelected sel u = true) ->
              find rule teams = None).
    { intros rule Hrule. apply find_nothing. intros u Hu.
      destruct (rule u) eqn:E; [| reflexivity].
      specialize (Hrule u E).
      rewrite (find_none _ _ Hfind u Hu) in Hrule. discriminate. }
    now rewrite (N _ R1), (N _ R2), (N _ R3), (N _ R4).
Qed.

End Lookup.

End MatchingFacts.

(** What the two lookups do, tier by tier: the first element of the
    response, in array order, that passes any of the four tests (exact name,
    lower-cased name, exact abbreviation, lower-cased abbreviation); failing
    that, the first element with the venue (['Away'] or ['Home']); failing
    that, the array position (0 or 1).  The lookup is the six-rule chain of
    the specification whenever all the elements that pass a test are one and
    the same. *)
Lemma team_matching_tiers {L : LowerCase} (teams : list ApiTeam.t) (sel : Team.t) :
  (forall l1 t l2,
     teams = (l1 ++ t :: l2)%list ->
     Matching.matchesSelected sel t = true ->
     (forall u, In u l1 -> Matching.matchesSelected sel u = false) ->
     Matching.awayTeamData teams sel = Some t /\ Matching.homeTeamData teams sel = Some t)
  /\ ((forall u, In u teams -> Matching.matchesSelected sel u = false) ->
      (forall l1 t l2,
         teams = (l1 ++ t :: l2)%list ->
         Matching.hasVenue "Away" t = true ->
         (forall u, In u l1 -> Matching.hasVenue "Away" u = false) ->
         Matching.awayTeamData teams sel = Some t)
      /\ (forall l1 t l2,
         teams = (l1 ++ t :: l2)%list ->
         Matching.hasVenue "Home" t = true ->
         (forall u, In u l1 -> Matching.hasVenue "Home" u = false) ->
         Matching.homeTeamData teams sel = Some t)
      /\ ((forall u, In u teams -> Matching.hasVenue "Away" u = false) ->
          Matching.awayTeamData teams sel = nth_error teams 0)
      /\ ((forall u, In u teams -> Matching.hasVenue "Home" u = false) ->
          Matching.homeTeamData teams sel = nth_error teams 1))
  /\ (Matching.oneCandidate teams sel ->
      Matching.awayTeamData teams sel = Matching.chainBySpec teams sel "Away" 0
      /\ Matching.homeTeamData teams sel = Matching.chainBySpec teams sel "Home" 1).
Proof.
  rewrite MatchingFacts.awayTeamData_lookup, MatchingFacts.homeTeamData_lookup.
  split; [| split].
  - intros l1 t l2 Hteams Ht Hl1.
    split; now apply (MatchingFacts.lookup_first_match _ _ teams sel l1 t l2).
  - intro Hnone. repeat split.
    + intros l1 t l2. now apply MatchingFacts.lookup_venue.
    + intros l1 t l2. now apply MatchingFacts.lookup_venue.
    + now apply MatchingFacts.lookup_position.
    + now apply MatchingFacts.lookup_position.
  - intro Hone. split; now apply MatchingFacts.lookup_agrees_with_spec.
Qed.

(** On the sample response both teams are found by their exact names, and
    the lookup is the chain of the specification. *)
Example team_matching_sample :
  let teams := [ ApiTeam.mk (Some "Philadelphia Eagles") (Some "PHI") (Some "Home")
                   (Some 24) None None None None None None;
                 ApiTeam.mk (Some "Dallas Cowboys") (Some "DAL") (Some "Away")
                   (Some 17) None None None None None None ] in
  option_map ApiTeam.name (Matching.awayTeamData teams cowboys) = Some (Some "Dallas Cowboys")
  /\ option_map ApiTeam.name (Matching.homeTeamData teams eagles)
     = Some (Some "Philadelphia Eagles")
  /\ Matching.awayTeamData teams cowboys = Matching.chainBySpec teams cowboys "Away" 0.
Proof. repeat split. Qed.

(** C9 -- Team matching: the lookup misses the priority of the name over
    the abbreviation.  Two teams share the abbreviation [MIA] and the
    response lists the home team first.  The selected away team is in the
    response under its exact name, the first rule of the chain, and the chain
    of the specification finds it there; the lookup of the page returns the
    first element, which passes the abbreviation test only, so that the away
    side is given the data of the home team and the page displays 31-31 where
    the response says 13-31.  (The names are ASCII, on which the lower-casing
    is [asciiLowerCase].) *)
Lemma team_matching_failing_input :
  let miamiOhio := Team.mk "193" "Miami (OH)" (Some "MIA") in
  let miamiFlorida := Team.mk "2390" "Miami (FL)" (Some "MIA") in
  let first := ApiTeam.mk (Some "Miami (FL)") (Some "MIA") (Some "Home")
                 (Some 31) None None None None None None in
  let second := ApiTeam.mk (Some "Miami (OH)") (Some "MIA") (Some "Away")
                  (Some 13) None None None None None None in
  let teams := [first; second] in
  let data := ApiResponse.mk (Some teams) None None None in
  let st := mkPageState college_football (Some miamiOhio) (Some miamiFlorida) None
              75 75 75 75 None None None None None None None in
  Matching.exactName miamiOhio second = true
  /\ Matching.exactName miamiOhio first = false
  /\ Matching.exactAbbreviation miamiOhio first = true
  /\ Matching.chainBySpec teams miamiOhio "Away" 0 = Some second
  /\ Matching.awayTeamData teams miamiOhio = Some first
  /\ Matching.homeTeamData teams miamiFlorida = Some first
  /\ Matching.awayTeamData teams miamiOhio <> Matching.chainBySpec teams miamiOhio "Away" 0
  /\ exists r : SimulationResult,
       simulationResult (applySimulationResponse data st) = Some r
       /\ away_score r = 31 /\ home_score r = 31.
Proof.
  intros miamiOhio miamiFlorida first second teams data st.
  do 6 (split; [reflexivity |]).
  split; [vm_compute; discriminate |].
  subst st data teams first second miamiOhio miamiFlorida. vm_compute.
  eexists. split; [reflexivity |]. split; reflexivity.
Qed.

(* ================================================================= *)
(** * Further properties of the engine *)

(** ** [roundScore] *)

(** X1 -- [roundScore] returns an integer and is idempotent; on a football
    code the score it returns is never negative and never 1, 2, 4 or 5. *)
Theorem roundScore_realistic (s : Q) (code : string) :
  (exists z : Z, roundScore s code = inject_Z z)
  /\ roundScore (roundScore s code) code = roundScore s code
  /\ ((code === "cfb") || (code === "nfl") || (code === "college-football") = true ->
      0 <= roundScore s code
      /\ ~ roundScore s code == 1 /\ ~ roundScore s code == 2
      /\ ~ roundScore s code == 4 /\ ~ roundScore s code == 5).
Proof.
  split; [apply roundScore_integer |].
  unfold roundScore.
  destruct ((code === "cfb") || (code === "nfl") || (code === "college-football")).
  - assert (Hhigh : forall x, (x <=? 2) = false -> (x <? 4.5) = false ->
                      (x <? 6) = false -> 6 <= Math_round x).
    { intros x E1 E2 E3. js_tests.
      change 6 with (inject_Z 6). rewrite <- (Math_round_integer 6).
      apply Math_round_mono. exact E3. }
    destruct (s <=? 2) eqn:E1; [repeat split; discriminate |].
    destruct (s <? 4.5) eqn:E2;
      [rewrite andb_true_r; change (s >? 2) with (negb (s <=? 2)); rewrite E1;
       repeat split; discriminate |].
    rewrite andb_false_r.
    destruct (s <? 6) eqn:E3;
      [assert (G : (s >=? 4.5) = true) by (apply js_le_iff; now apply js_lt_false_iff);
       rewrite G; repeat split; discriminate |].
    rewrite andb_false_r.
    pose proof (Hhigh s E1 E2 E3) as H6.
    assert (F1 : (Math_round s <=? 2) = false) by (apply js_le_false_iff; Lqa.lra).
    assert (F2 : (Math_round s <? 4.5) = false) by (apply js_lt_false_iff; Lqa.lra).
    assert (F3 : (Math_round s <? 6) = false) by (apply js_lt_false_iff; Lqa.lra).
    rewrite F1, F2, F3, !andb_false_r.
    split; [apply Math_round_integer |].
    intros _. repeat split; try Lqa.lra; intro H; rewrite H in H6; Lqa.lra.
  - split; [apply Math_round_integer | discriminate].
Qed.

(** ** The other three sliders *)

Section OtherAxes.

Variable o : OriginalRatings.t.
Variable sport : string.
Variables originalAwayScore originalHomeScore : Q.

Lemma projection_monotone (g1 g2 g0 range r0 : Q) :
  0 <= range -> g1 <= g2 ->
  Math_round (((g1 - g0) * range / newRange + r0) * 100) / 100
  <= Math_round (((g2 - g0) * range / newRange + r0) * 100) / 100.
Proof.
  intros Hrange Hg. apply rounding_to_cents_mono.
  assert (Hm : (g1 - g0) * range <= (g2 - g0) * range)
    by (apply Qmult_le_compat_r; [Lqa.lra | exact Hrange]).
  div_literals. Lqa.lra.
Qed.

(** X2 -- Each score depends on the two sliders of its own side only: the
    away score on the away offence and the home defence, the home score on
    the home offence and the away defence, whatever the other two sliders
    and the other baseline score are. *)
Theorem each_side_has_its_own_sliders
  (awayOff awayDef homeOff homeDef awayOff' awayDef' homeOff' homeDef' a' h' : Q) :
  away_score (recomputedResult o awayOff awayDef homeOff homeDef sport
                originalAwayScore originalHomeScore)
  = away_score (recomputedResult o awayOff awayDef' homeOff' homeDef sport
                  originalAwayScore h')
  /\ home_score (recomputedResult o awayOff awayDef homeOff homeDef sport
                   originalAwayScore originalHomeScore)
     = home_score (recomputedResult o awayOff' awayDef homeOff homeDef' sport
                     a' originalHomeScore).
Proof.
  rewrite !recomputedResult_away, !recomputedResult_home.
  rewrite !sliderScores_away, !sliderScores_home. split; reflexivity.
Qed.

(** X3 -- A better defence never raises the score of the opponent.  The
    defensive range being a width, and the other sliders being held fixed, a
    higher home-defence grade gives an away score that is not higher, and a
    higher away-defence grade a home score that is not higher, whenever both
    scores come from the rules (the offence slider of that score is off its
    baseline, or neither grade is the baseline grade). *)
Theorem defence_lowers_opponent_score
  (awayOff awayDef homeOff homeDef g1 g2 : Q) :
  0 <= OriginalRatings.defensiveRange o ->
  g1 < g2 ->
  (awayOffChanged o awayOff = true
   \/ (homeDefChanged o g1 = true /\ homeDefChanged o g2 = true) ->
   away_score (recomputedResult o awayOff awayDef homeOff g2 sport
                 originalAwayScore originalHomeScore)
   <= away_score (recomputedResult o awayOff awayDef homeOff g1 sport
                    originalAwayScore originalHomeScore))
  /\ (homeOffChanged o homeOff = true
      \/ (awayDefChanged o g1 = true /\ awayDefChanged o g2 = true) ->
      home_score (recomputedResult o awayOff g2 homeOff homeDef sport
                    originalAwayScore originalHomeScore)
      <= home_score (recomputedResult o awayOff g1 homeOff homeDef sport
                       originalAwayScore originalHomeScore)).
Proof.
  intros Hrange Hg.
  rewrite !recomputedResult_away, !recomputedResult_home.
  rewrite !sliderScores_away, !sliderScores_home.
  split; intro Hrules.
  - assert (E : forall g, (g = g1 \/ g = g2) ->
              awayOffChanged o awayOff || homeDefChanged o g = true).
    { intros g Hg'. destruct Hrules as [-> | [H1 H2]]; [reflexivity |].
      destruct Hg' as [-> | ->]; [rewrite H1 | rewrite H2]; apply orb_true_r. }
    rewrite (E g1), (E g2) by auto.
    assert (Hr : roundedHomeDef o g1 <= roundedHomeDef o g2)
      by (apply projection_monotone; [exact Hrange | Lqa.lra]).
    apply Math_max_mono, roundScore_mono. Lqa.lra.
  - assert (E : forall g, (g = g1 \/ g = g2) ->
              homeOffChanged o homeOff || awayDefChanged o g = true).
    { intros g Hg'. destruct Hrules as [-> | [H1 H2]]; [reflexivity |].
      destruct Hg' as [-> | ->]; [rewrite H1 | rewrite H2]; apply orb_true_r. }
    rewrite (E g1), (E g2) by auto.
    assert (Hr : roundedAwayDef o g1 <= roundedAwayDef o g2)
      by (apply projection_monotone; [exact Hrange | Lqa.lra]).
    apply Math_max_mono, roundScore_mono. Lqa.lra.
Qed.

(** X4 -- A better home offence never lowers the home score: the offensive
    range being a width, and the other sliders being held fixed, a higher
    home-offence grade gives a home score that is not lower, whenever both
    scores come from the rules. *)
Theorem home_offence_raises_home_score
  (awayOff awayDef homeDef g1 g2 : Q) :
  0 <= OriginalRatings.offensiveRange o ->
  g1 < g2 ->
  awayDefChanged o awayDef = true
  \/ (homeOffChanged o g1 = true /\ homeOffChanged o g2 = true) ->
  home_score (recomputedResult o awayOff awayDef g1 homeDef sport
                originalAwayScore originalHomeScore)
  <= home_score (recomputedResult o awayOff awayDef g2 homeDef sport
                   originalAwayScore originalHomeScore).
Proof.
  intros Hrange Hg Hrules.
  rewrite !recomputedResult_home, !sliderScores_home.
  assert (E : forall g, (g = g1 \/ g = g2) ->
            homeOffChanged o g || awayDefChanged o awayDef = true).
  { intros g Hg'. destruct Hrules as [-> | [H1 H2]]; [apply orb_true_r |].
    destruct Hg' as [-> | ->]; [rewrite H1 | rewrite H2]; reflexivity. }
  rewrite (E g1), (E g2) by auto.
  assert (Hr : roundedHomeOff o g1 <= roundedHomeOff o g2)
    by (apply projection_monotone; [exact Hrange | Lqa.lra]).
  apply Math_max_mono, roundScore_mono. Lqa.lra.
Qed.

End OtherAxes.

(** The home defence of the sample page from 85 to 95, and its away defence
    from 65 to 70, the offence sliders being off their baselines. *)
Lemma defence_lowers_opponent_score_witness :
  away_score (recomputedResult sampleRatings 90 75 82 95 "nfl" 17 24)
  <= away_score (recomputedResult sampleRatings 90 75 82 85 "nfl" 17 24)
  /\ home_score (recomputedResult sampleRatings 80 70 90 78 "nfl" 17 24)
     <= home_score (recomputedResult sampleRatings 80 65 90 78 "nfl" 17 24).
Proof.
  assert (Hrange : 0 <= OriginalRatings.defensiveRange sampleRatings) by discriminate.
  split.
  - apply (proj1 (defence_lowers_opponent_score sampleRatings "nfl" 17 24 90 75 82 78 85 95
                    Hrange eq_refl)).
    left. reflexivity.
  - apply (proj2 (defence_lowers_opponent_score sampleRatings "nfl" 17 24 80 75 90 78 65 70
                    Hrange eq_refl)).
    left. reflexivity.
Defined.

Lemma home_offence_raises_home_score_witness :
  home_score (recomputedResult sampleRatings 80 75 85 78 "nba" 101 104)
  <= home_score (recomputedResult sampleRatings 80 75 95 78 "nba" 101 104).
Proof.
  apply (home_offence_raises_home_score sampleRatings "nba" 101 104 80 75 78 85 95);
    [discriminate | reflexivity | right; split; reflexivity].
Defined.

(** ** The effect, run after run *)

(** X5 -- The effect writes the displayed result and the four current-rating
    refs and nothing else: the sport, the two selected teams, the four
    slider grades, the baseline ratings and the two baseline scores are the
    ones it found.  Without baseline ratings, without a displayed result or
    without one of the two teams it leaves the whole state as it is. *)
Theorem recompute_frame (st : PageState) :
  sport (recompute st) = sport st
  /\ awayTeam (recompute st) = awayTeam st
  /\ homeTeam (recompute st) = homeTeam st
  /\ (forall sl : Slider, sliderGrade sl (recompute st) = sliderGrade sl st)
  /\ originalRatings (recompute st) = originalRatings st
  /\ originalAwayScoreRef (recompute st) = originalAwayScoreRef st
  /\ originalHomeScoreRef (recompute st) = originalHomeScoreRef st
  /\ (originalRatings st = None \/ simulationResult st = None
      \/ awayTeam st = None \/ homeTeam st = None ->
      recompute st = st).
Proof.
  unfold recompute.
  destruct (originalRatings st) as [o |] eqn:Ho;
    [| repeat split; auto; intros []; reflexivity].
  destruct (simulationResult st) as [sim |] eqn:Hsim;
    [| repeat split; auto; intros []; reflexivity].
  destruct (awayTeam st) as [away |] eqn:Haway;
    [| repeat split; auto; intros []; reflexivity].
  destruct (homeTeam st) as [home |] eqn:Hhome;
    [| repeat split; auto; intros []; reflexivity].
  rewrite sport_code_not_empty. cbv zeta.
  repeat match goal with |- context [if ?c then _ else _] => destruct c end;
    (repeat split; cbn; auto;
     try (intros []; reflexivity);
     try (intros [H | [H | [H | H]]]; discriminate H)).
Qed.

(** Reduces the fields of a state built by the setters. *)
Ltac state_fields :=
  cbn [sport awayTeam homeTeam simulationResult
       awayOffensiveNumericGrade awayDefensiveNumericGrade
       homeOffensiveNumericGrade homeDefensiveNumericGrade
       currentAwayOffensiveRatingRef currentAwayDefensiveRatingRef
       currentHomeOffensiveRatingRef currentHomeDefensiveRatingRef
       originalAwayScoreRef originalHomeScoreRef originalRatings
       setSimulationResult setCurrentRatingRefs setOriginalScoreRefs setOriginalRatings
       setAwayOffensiveNumericGrade setAwayDefensiveNumericGrade
       setHomeOffensiveNumericGrade setHomeDefensiveNumericGrade].

(** X6 -- The effect is idempotent once the baseline is captured: a second
    run on the state the first run left changes nothing. *)
Theorem recompute_idempotent (st : PageState) (o : OriginalRatings.t) (a h : Q) :
  baselineCaptured st o a h ->
  recompute (recompute st) = recompute st.
Proof.
  intro Hbase.
  destruct (simulationResult st) as [sim |] eqn:Hsim;
    [| destruct Hbase as (_ & _ & _ & _ & _ & Hnone); contradiction].
  pose proof (recompute_with_baseline st o a h sim Hbase Hsim) as Hfirst.
  destruct (recompute_preserves st o a h Hbase) as [Hbase' _].
  destruct (slidersAtBaseline st o) eqn:Hsliders.
  - destruct ((away_score sim !== a) || (home_score sim !== h)) eqn:Hdiffer.
    + rewrite Hfirst.
      rewrite (recompute_with_baseline _ o a h (restoredResult sim a h));
        [| rewrite <- Hfirst; exact Hbase' | reflexivity].
      change (slidersAtBaseline (setSimulationResult (restoredResult sim a h) st) o)
        with (slidersAtBaseline st o).
      rewrite Hsliders. cbn [away_score home_score restoredResult].
      now rewrite !strict_eq_number_refl.
    + rewrite Hfirst. exact Hfirst.
  - cbv zeta in Hfirst.
    destruct ((away_score _ !== away_score sim) || (home_score _ !== home_score sim))
      eqn:Hdiffer in Hfirst.
    + rewrite Hfirst.
      match type of Hfirst with _ = setSimulationResult ?r ?st1 =>
        rewrite (recompute_with_baseline _ o a h r);
        [| rewrite <- Hfirst; exact Hbase' | reflexivity];
        change (slidersAtBaseline (setSimulationResult r st1) o)
          with (slidersAtBaseline st o) end.
      rewrite Hsliders. cbv zeta. state_fields.
      rewrite !strict_eq_number_refl. reflexivity.
    + rewrite Hfirst.
      match type of Hfirst with _ = ?st1 =>
        rewrite (recompute_with_baseline st1 o a h sim);
        [| rewrite <- Hfirst; exact Hbase' | exact Hsim];
        change (slidersAtBaseline st1 o) with (slidersAtBaseline st o) end.
      rewrite Hsliders. cbv zeta. state_fields. rewrite Hdiffer. reflexivity.
Qed.

Lemma recompute_idempotent_witness :
  let st := setSlider AwayOff 90 sampleState in
  recompute (recompute st) = recompute st.
Proof.
  intro st.
  apply (recompute_idempotent st sampleRatings 17 24).
  repeat split; discriminate.
Defined.

(** X7 -- The scores displayed after the effect are a function of the
    baseline, the sport and the four slider grades: two pages with the same
    baseline and the same grades display the same two scores, whatever each
    displayed before and whatever path its sliders took. *)
Theorem displayed_scores_forget_the_path (st1 st2 : PageState) (o : OriginalRatings.t)
  (a h : Q) :
  baselineCaptured st1 o a h ->
  baselineCaptured st2 o a h ->
  sport st1 = sport st2 ->
  (forall sl : Slider, sliderGrade sl st1 = sliderGrade sl st2) ->
  exists r1 r2 : SimulationResult,
    simulationResult (recompute st1) = Some r1
    /\ simulationResult (recompute st2) = Some r2
    /\ away_score r1 == away_score r2 /\ home_score r1 == home_score r2.
Proof.
  intros Hb1 Hb2 Hsport Hgrades.
  destruct (recompute_displays_rule_scores st1 o a h Hb1) as (r1 & Hr1 & Ha1 & Hh1).
  destruct (recompute_displays_rule_scores st2 o a h Hb2) as (r2 & Hr2 & Ha2 & Hh2).
  exists r1, r2. split; [exact Hr1 |]. split; [exact Hr2 |].
  pose proof (Hgrades AwayOff) as G1. pose proof (Hgrades AwayDef) as G2.
  pose proof (Hgrades HomeOff) as G3. pose proof (Hgrades HomeDef) as G4.
  cbn [sliderGrade] in G1, G2, G3, G4.
  rewrite G1, G2, G3, G4, Hsport in Ha1, Hh1.
  split.
  - eapply Qeq_trans; [exact Ha1 | symmetry; exact Ha2].
  - eapply Qeq_trans; [exact Hh1 | symmetry; exact Hh2].
Qed.

(** The away offence at 85, reached directly and reached through 90. *)
Lemma displayed_scores_forget_the_path_witness :
  let st1 := setSlider AwayOff 85 (moveSlider AwayOff 90 sampleState) in
  let st2 := setSlider AwayOff 85 sampleState in
  exists r1 r2 : SimulationResult,
    simulationResult (recompute st1) = Some r1
    /\ simulationResult (recompute st2) = Some r2
    /\ away_score r1 == away_score r2 /\ home_score r1 == home_score r2.
Proof.
  intros st1 st2.
  apply (displayed_scores_forget_the_path st1 st2 sampleRatings 17 24).
  - subst st1. vm_compute. repeat split; discriminate.
  - repeat split; discriminate.
  - reflexivity.
  - intros []; reflexivity.
Defined.

Lemma moveSliders_invariant (moves : list (Slider * Q)) (st : PageState)
  (o : OriginalRatings.t) (a h : Q) :
  baselineCaptured st o a h -> baselineCaptured (moveSliders moves st) o a h.
Proof.
  revert st. induction moves as [| [sl g] moves IH]; intros st Hbase; [exact Hbase |].
  cbn [moveSliders fold_left fst snd]. apply IH.
  now destruct (moveSlider_invariant sl g st o a h Hbase).
Qed.

(** X8 -- Scores stay scores.  The two baseline scores being not negative,
    the page displays no negative score after any sequence of moves of any
    of the four sliders to any grades. *)
Theorem displayed_scores_never_negative (moves : list (Slider * Q)) (sl : Slider) (g : Q)
  (st : PageState) (o : OriginalRatings.t) (a h : Q) :
  baselineCaptured st o a h ->
  0 <= a -> 0 <= h ->
  exists r : SimulationResult,
    simulationResult (moveSlider sl g (moveSliders moves st)) = Some r
    /\ 0 <= away_score r /\ 0 <= home_score r.
Proof.
  intros Hbase Ha Hh.
  pose proof (moveSliders_invariant moves st o a h Hbase) as Hb.
  destruct (setSlider_preserves sl g _ o a h Hb) as (Hb' & _ & _).
  unfold moveSlider.
  destruct (recompute_displays_rule_scores _ o a h Hb') as (r & Hr & Haway & Hhome).
  exists r. split; [exact Hr |].
  rewrite sliderScores_away in Haway. rewrite sliderScores_home in Hhome.
  split.
  - apply Qle_trans with (2 := proj2 (Qle_lteq _ _) (or_intror (Qeq_sym _ _ Haway))).
    match goal with |- context [if ?c then _ else _] => destruct c end;
      [apply Math_max_ge_l | exact Ha].
  - apply Qle_trans with (2 := proj2 (Qle_lteq _ _) (or_intror (Qeq_sym _ _ Hhome))).
    match goal with |- context [if ?c then _ else _] => destruct c end;
      [apply Math_max_ge_l | exact Hh].
Qed.

(** Every slider of the sample page pulled to the end that lowers a score. *)
Lemma displayed_scores_never_negative_witness :
  exists r : SimulationResult,
    simulationResult
      (moveSlider AwayDef 99
         (moveSliders [(AwayOff, 60); (HomeDef, 99); (HomeOff, 60)] sampleState)) = Some r
    /\ 0 <= away_score r /\ 0 <= home_score r.
Proof.
  apply (displayed_scores_never_negative
           [(AwayOff, 60); (HomeDef, 99); (HomeOff, 60)] AwayDef 99
           sampleState sampleRatings 17 24 sampleState_baseline);
    discriminate.
Defined.

(** X9 -- The effect keeps a consistent result consistent: when the
    displayed spread is home minus away and the displayed total away plus
    home, so are they after the effect, on every state. *)
Theorem recompute_keeps_spread_and_total (st : PageState) (sim : SimulationResult) :
  simulationResult st = Some sim ->
  spread sim == home_score sim - away_score sim ->
  total sim == away_score sim + home_score sim ->
  exists r : SimulationResult,
    simulationResult (recompute st) = Some r
    /\ spread r == home_score r - away_score r
    /\ total r == away_score r + home_score r.
Proof.
  intros Hsim Hspread Htotal. unfold recompute. rewrite Hsim.
  destruct (originalRatings st) as [o |]; [| exists sim; auto].
  destruct (awayTeam st); [| exists sim; auto].
  destruct (homeTeam st); [| exists sim; auto].
  rewrite sport_code_not_empty. cbv zeta.
  repeat match goal with |- context [if ?c then _ else _] => destruct c end;
    state_fields;
    try (exists sim; split; [exact Hsim | split; assumption]);
    (eexists; split; [reflexivity | split; apply Qeq_refl]).
Qed.

Lemma recompute_keeps_spread_and_total_witness :
  let st := moveSlider AwayOff 90 sampleState in
  exists r : SimulationResult,
    simulationResult (recompute (setSlider HomeOff 90 st)) = Some r
    /\ spread r == home_score r - away_score r
    /\ total r == away_score r + home_score r.
Proof.
  intro st.
  apply (recompute_keeps_spread_and_total (setSlider HomeOff 90 st)
           (recomputedResult sampleRatings 90 75 82 78 "nfl" 17 24)).
  - subst st. vm_compute. reflexivity.
  - reflexivity.
  - reflexivity.
Defined.

Lemma slidersAtBaseline_iff (st : PageState) (o : OriginalRatings.t) :
  slidersAtBaseline st o = true <-> forall sl : Slider, sliderChanged sl o st = false.
Proof.
  unfold slidersAtBaseline, sliderChanged,
    awayOffChanged, awayDefChanged, homeOffChanged, homeDefChanged.
  split.
  - intros H sl. repeat (apply andb_true_iff in H; destruct H as [H ?]).
    destruct sl; cbn [sliderGrade baselineGrade]; now apply negb_true_iff.
  - intro H.
    pose proof (H AwayOff) as H1. pose proof (H AwayDef) as H2.
    pose proof (H HomeOff) as H3. pose proof (H HomeDef) as H4.
    cbn [sliderGrade baselineGrade] in H1, H2, H3, H4.
    now rewrite H1, H2, H3, H4.
Qed.

Lemma setSlider_result (sl : Slider) (g : Q) (st : PageState) :
  simulationResult (setSlider sl g st) = simulationResult st.
Proof. now destruct sl. Qed.

(** X10 -- Back on the baseline the scores come back, the probabilities do
    not.  From a page with its baseline captured and every slider on its
    baseline grade, a slider moved to any grade and then back to its baseline
    grade leaves the baseline scores displayed with the two win probabilities
    of the moved page. *)
Theorem reset_keeps_moved_probabilities (sl : Slider) (g : Q) (st : PageState)
  (o : OriginalRatings.t) (a h : Q) (r : SimulationResult) :
  baselineCaptured st o a h ->
  slidersAtBaseline st o = true ->
  simulationResult (moveSlider sl g st) = Some r ->
  exists r' : SimulationResult,
    simulationResult (moveSlider sl (baselineGrade sl o) (moveSlider sl g st)) = Some r'
    /\ away_score r' == a /\ home_score r' == h
    /\ home_win_probability r' = home_win_probability r
    /\ away_win_probability r' = away_win_probability r.
Proof.
  intros Hbase Hat Hr.
  destruct (moveSlider_invariant sl g st o a h Hbase) as (Hm & _ & Hothers).
  set (m := moveSlider sl g st) in *.
  destruct (setSlider_preserves sl (baselineGrade sl o) m o a h Hm) as (Hb & Hg & Hsame).
  unfold moveSlider at 1.
  set (b := setSlider sl (baselineGrade sl o) m) in *.
  assert (Hsim : simulationResult b = Some r)
    by (subst b; now rewrite setSlider_result).
  assert (Hback : slidersAtBaseline b o = true).
  { apply slidersAtBaseline_iff. intro sl'.
    pose proof (proj1 (slidersAtBaseline_iff st o) Hat sl') as Hst.
    unfold sliderChanged in *.
    assert (Hcases : sl' = sl \/ sl' <> sl)
      by (destruct sl, sl'; (now left) || (right; discriminate)).
    destruct Hcases as [-> | Hneq].
    - rewrite Hg. now rewrite strict_eq_number_refl.
    - rewrite (Hsame sl' Hneq), (Hothers sl' Hneq). exact Hst. }
  rewrite (recompute_with_baseline b o a h r Hb Hsim), Hback.
  destruct ((away_score r !== a) || (home_score r !== h)) eqn:Hdiff.
  - exists (restoredResult r a h). cbn. repeat split; reflexivity.
  - apply orb_false_iff in Hdiff. destruct Hdiff as [Ha Hh].
    exists r. split; [exact Hsim |].
    split; [now apply strict_neq_false |]. split; [now apply strict_neq_false |].
    split; reflexivity.
Qed.

Lemma reset_keeps_moved_probabilities_witness :
  exists r' : SimulationResult,
    simulationResult (moveSlider AwayOff 80 (moveSlider AwayOff 90 sampleState)) = Some r'
    /\ away_score r' == 17 /\ home_score r' == 24
    /\ home_win_probability r'
       = home_win_probability (recomputedResult sampleRatings 90 75 82 78 "nfl" 17 24)
    /\ away_win_probability r'
       = away_win_probability (recomputedResult sampleRatings 90 75 82 78 "nfl" 17 24).
Proof.
  apply (reset_keeps_moved_probabilities AwayOff 90 sampleState sampleRatings 17 24
           (recomputedResult sampleRatings 90 75 82 78 "nfl" 17 24)
           sampleState_baseline).
  - reflexivity.
  - vm_compute. reflexivity.
Defined.

(** ** The win probabilities *)

Section ProbabilityFacts.

Local Open Scope R_scope.

Lemma exp_mono_le (x y : R) : x <= y -> exp x <= exp y.
Proof. intros [H | ->]; [left; now apply exp_increasing | right; reflexivity]. Qed.

Lemma logistic_as_fraction (k s : Q) : logistic k s = / (1 + exp (- (Q2R k * Q2R s))).
Proof. rewrite logistic_real. unfold Rdiv. apply Rmult_1_l. Qed.

Lemma Q2R_zero : Q2R 0 = 0.
Proof. unfold Q2R. simpl. Lra.lra. Qed.

(** The logistic value grows with the spread, strictly. *)
Lemma logistic_strict (k s1 s2 : Q) :
  (0 < k)%Q -> (s1 < s2)%Q -> logistic k s1 < logistic k s2.
Proof.
  intros Hk Hs. rewrite !logistic_as_fraction.
  apply Qlt_Rlt in Hk, Hs. rewrite Q2R_zero in Hk.
  pose proof (exp_pos (- (Q2R k * Q2R s1))) as H1.
  pose proof (exp_pos (- (Q2R k * Q2R s2))) as H2.
  apply Rinv_lt_contravar; [nra |].
  apply Rplus_lt_compat_l, exp_increasing. nra.
Qed.

Lemma logistic_mono (k s1 s2 : Q) :
  (0 < k)%Q -> (s1 <= s2)%Q -> logistic k s1 <= logistic k s2.
Proof.
  intros Hk Hs. apply Qle_lteq in Hs. destruct Hs as [Hs | Hs].
  - left. now apply logistic_strict.
  - right. unfold logistic. now rewrite Hs.
Qed.

(** It grows with the sensitivity as well, for a home side ahead. *)
Lemma logistic_sensitivity (k1 k2 s : Q) :
  (k1 < k2)%Q -> (0 < s)%Q -> logistic k1 s < logistic k2 s.
Proof.
  intros Hk Hs. rewrite !logistic_as_fraction.
  apply Qlt_Rlt in Hk, Hs. rewrite Q2R_zero in Hs.
  pose proof (exp_pos (- (Q2R k1 * Q2R s))) as H1.
  pose proof (exp_pos (- (Q2R k2 * Q2R s))) as H2.
  apply Rinv_lt_contravar; [nra |].
  apply Rplus_lt_compat_l, exp_increasing. nra.
Qed.

Lemma logistic_zero (k s : Q) : (s == 0)%Q -> logistic k s = 1 / 2.
Proof.
  intro Hs. rewrite logistic_real, (Qeq_eqR _ _ Hs), Q2R_zero, Rmult_0_r, Ropp_0, exp_0.
  Lra.lra.
Qed.

Lemma logistic_half (k s : Q) :
  (0 < k)%Q ->
  (1 / 2 <= logistic k s <-> (0 <= s)%Q) /\ (logistic k s <= 1 / 2 <-> (s <= 0)%Q).
Proof.
  intro Hk. rewrite <- (logistic_zero k 0) by reflexivity.
  split; split; intro H.
  - destruct (Qlt_le_dec s 0) as [Hlt | Hle]; [| exact Hle].
    pose proof (logistic_strict k s 0 Hk Hlt). Lra.lra.
  - now apply logistic_mono.
  - destruct (Qlt_le_dec 0 s) as [Hlt | Hle]; [| exact Hle].
    pose proof (logistic_strict k 0 s Hk Hlt). Lra.lra.
  - now apply logistic_mono.
Qed.

Lemma clampProbability_mono (p q : R) :
  p <= q -> clampProbability p <= clampProbability q.
Proof.
  intro H. unfold clampProbability, Rmax, Rmin. repeat destruct Rle_dec; Lra.lra.
Qed.

Lemma clampProbability_half (p : R) :
  (1 / 2 <= clampProbability p <-> 1 / 2 <= p)
  /\ (clampProbability p <= 1 / 2 <-> p <= 1 / 2).
Proof. unfold clampProbability, Rmax, Rmin. repeat destruct Rle_dec; Lra.lra. Qed.

Lemma recomputeSensitivity_positive (code : string) : (0 < recomputeSensitivity code)%Q.
Proof.
  unfold recomputeSensitivity.
  repeat match goal with |- context [if ?c then _ else _] => destruct c end; reflexivity.
Qed.

(** X11 -- The favourite is the side with more points.  In every
    recomputed result, on every sport code, the home probability is at least
    the away probability exactly when the home score is at least the away
    score, and conversely; equal scores give one half each. *)
Theorem favourite_has_the_higher_score (o : OriginalRatings.t)
  (awayOff awayDef homeOff homeDef : Q) (code : string) (a h : Q) :
  let r := recomputedResult o awayOff awayDef homeOff homeDef code a h in
  ((away_score r <= home_score r)%Q
     <-> away_win_probability r <= home_win_probability r)
  /\ ((home_score r <= away_score r)%Q
     <-> home_win_probability r <= away_win_probability r)
  /\ ((away_score r == home_score r)%Q ->
      home_win_probability r = 1 / 2 /\ away_win_probability r = 1 / 2).
Proof.
  intro r.
  change (away_win_probability r) with (1 - home_win_probability r).
  change (home_win_probability r)
    with (clampProbability (logistic (recomputeSensitivity code) (spread r))).
  change (spread r) with (home_score r - away_score r)%Q.
  set (s := (home_score r - away_score r)%Q).
  destruct (logistic_half (recomputeSensitivity code) s
              (recomputeSensitivity_positive code)) as [Hge Hle].
  destruct (clampProbability_half (logistic (recomputeSensitivity code) s)) as [Cge Cle].
  assert (Hs1 : (0 <= s)%Q <-> (away_score r <= home_score r)%Q)
    by (subst s; split; intro; Lqa.lra).
  assert (Hs2 : (s <= 0)%Q <-> (home_score r <= away_score r)%Q)
    by (subst s; split; intro; Lqa.lra).
  split; [| split].
  - rewrite <- Hs1, <- Hge, <- Cge. split; intro; Lra.lra.
  - rewrite <- Hs2, <- Hle, <- Cle. split; intro; Lra.lra.
  - intro Heq.
    assert (H0 : (s == 0)%Q) by (subst s; Lqa.lra).
    rewrite (logistic_zero _ s H0).
    destruct (clampProbability_cases (1 / 2)) as (_ & Hmid & _).
    rewrite Hmid by Lra.lra. split; Lra.lra.
Qed.

(** X12 -- A larger home margin never lowers the home probability and never
    raises the away probability, on every sport code and through the clamp. *)
Theorem probability_follows_the_spread (code : string) (spread1 spread2 : Q) :
  (spread1 <= spread2)%Q ->
  fst (recomputeWinProbability code spread1) <= fst (recomputeWinProbability code spread2)
  /\ snd (recomputeWinProbability code spread2) <= snd (recomputeWinProbability code spread1).
Proof.
  intro Hs. unfold recomputeWinProbability. cbn [fst snd].
  pose proof (clampProbability_mono _ _
                (logistic_mono (recomputeSensitivity code) spread1 spread2
                   (recomputeSensitivity_positive code) Hs)).
  split; Lra.lra.
Qed.

Lemma probability_follows_the_spread_witness :
  fst (recomputeWinProbability "nba" (-3)) <= fst (recomputeWinProbability "nba" 4.5)
  /\ snd (recomputeWinProbability "nba" 4.5) <= snd (recomputeWinProbability "nba" (-3)).
Proof. apply (probability_follows_the_spread "nba" (-3) 4.5). discriminate. Defined.

Lemma exp_6_upper : exp 6 <= 729.
Proof.
  pose proof exp_le_3 as H1. pose proof (exp_pos 1) as P1.
  assert (H2 : exp 2 <= 9).
  { replace 2 with (2 * 1) by Lra.lra. rewrite exp_square. nra. }
  pose proof (exp_pos 2) as P2.
  assert (H4 : exp 4 <= 81).
  { replace 4 with (2 * 2) by Lra.lra. rewrite exp_square. nra. }
  pose proof (exp_pos 4) as P4.
  replace 6 with (4 + 2) by Lra.lra. rewrite exp_plus. nra.
Qed.

(** X13 -- The helper [calculateWinProbability] and the effect compute the
    same two probabilities on ['nfl'] and ['college-football'], for all
    scores.  On the two basketball codes they do not: for a home side ahead
    by up to 60 points the helper's home probability is strictly below the
    one the effect displays. *)
Theorem helper_and_effect_probabilities (homeScore awayScore : Q) (code : string) :
  (code = "nfl"%string \/ code = "college-football"%string ->
   calculateWinProbability homeScore awayScore code
   = recomputeWinProbability code (homeScore - awayScore))
  /\ (code = "nba"%string \/ code = "college-basketball"%string ->
      (0 < homeScore - awayScore)%Q -> (homeScore - awayScore <= 60)%Q ->
      fst (calculateWinProbability homeScore awayScore code)
      < fst (recomputeWinProbability code (homeScore - awayScore))).
Proof.
  split.
  - intros [-> | ->]; reflexivity.
  - intros Hcode Hpos Hmax.
    set (s := (homeScore - awayScore)%Q) in *.
    assert (Hhelper : fst (calculateWinProbability homeScore awayScore code)
                      = clampProbability (logistic 0.10 s))
      by (destruct Hcode as [-> | ->]; reflexivity).
    assert (Heffect : fst (recomputeWinProbability code s)
                      = clampProbability (logistic 0.13 s))
      by (destruct Hcode as [-> | ->]; reflexivity).
    rewrite Hhelper, Heffect.
    pose proof (logistic_sensitivity 0.10 0.13 s eq_refl Hpos) as Hlt.
    assert (Hlow : 1 / 2 <= logistic 0.10 s).
    { apply (logistic_half 0.10 s eq_refl). now apply Qlt_le_weak. }
    assert (Hhigh : logistic 0.10 s < 0.999).
    { rewrite logistic_as_fraction.
      apply Qle_Rle in Hmax.
      assert (H60 : Q2R 60 = 60) by (unfold Q2R; simpl; Lra.lra).
      assert (Hk : Q2R 0.10 = 0.1) by (unfold Q2R; simpl; Lra.lra).
      rewrite H60 in Hmax. rewrite Hk.
      assert (Hexp : exp (0.1 * Q2R s) <= 729).
      { eapply Rle_trans; [apply exp_mono_le | apply exp_6_upper]. Lra.lra. }
      pose proof (exp_pos (0.1 * Q2R s)) as Hp.
      rewrite exp_Ropp.
      set (e := exp (0.1 * Q2R s)) in *.
      assert (Hinv : e * / e = 1) by (apply Rinv_r; Lra.lra).
      assert (Hi : 0 < / e) by (apply Rinv_0_lt_compat; exact Hp).
      assert (H1 : (1 + / e) * / (1 + / e) = 1) by (apply Rinv_r; Lra.lra).
      assert (Hp1 : 0 < / (1 + / e)) by (apply Rinv_0_lt_compat; Lra.lra).
      set (x := / (1 + / e)) in *. set (i := / e) in *.
      assert (Hi729 : / 729 <= i).
      { subst i. apply Rinv_le_contravar; assumption. }
      nra. }
    destruct (clampProbability_cases (logistic 0.10 s)) as (_ & Hmid & _).
    rewrite Hmid by Lra.lra.
    unfold clampProbability, Rmax, Rmin. repeat destruct Rle_dec; Lra.lra.
Qed.

End ProbabilityFacts.

(** ** The simulation response *)

(** A lookup answers whenever the response is long enough for its position. *)
Lemma lookup_defined {L : LowerCase} (v : string) (position : nat) (teams : list ApiTeam.t) (sel : Team.t) :
  (position < List.length teams)%nat ->
  exists t : ApiTeam.t, Matching.lookup v position teams sel = Some t.
Proof.
  intro Hlen. unfold Matching.lookup.
  destruct (find (Matching.matchesSelected sel) teams) as [t |]; [now exists t |].
  destruct (find (Matching.hasVenue v) teams) as [t |]; [now exists t |].
  destruct (nth_error teams position) as [t |] eqn:Hnth; [now exists t |].
  apply nth_error_None in Hnth. lia.
Qed.

(** Without baseline ratings the effect does nothing, so a move of a slider
    is the setter alone. *)
Lemma moveSlider_without_ratings (sl : Slider) (g : Q) (st : PageState) :
  originalRatings st = None -> moveSlider sl g st = setSlider sl g st.
Proof.
  intro Hnone. unfold moveSlider, recompute.
  replace (originalRatings (setSlider sl g st)) with (originalRatings st)
    by (now destruct sl).
  now rewrite Hnone.
Qed.

Lemma moveSliders_without_ratings (moves : list (Slider * Q)) (st : PageState) :
  originalRatings st = None ->
  originalRatings (moveSliders moves st) = None
  /\ simulationResult (moveSliders moves st) = simulationResult st
  /\ awayTeam (moveSliders moves st) = awayTeam st
  /\ homeTeam (moveSliders moves st) = homeTeam st.
Proof.
  revert st. induction moves as [| [sl g] moves IH]; intros st Hnone; [now repeat split |].
  cbn [moveSliders fold_left fst snd].
  rewrite (moveSlider_without_ratings sl g st Hnone).
  assert (Hnone' : originalRatings (setSlider sl g st) = None) by (now destruct sl).
  destruct (IH _ Hnone') as (H1 & H2 & H3 & H4).
  unfold moveSliders in *. rewrite H2, H3, H4.
  split; [exact H1 |]. now destruct sl.
Qed.

(** Two states with the same fields are the same state. *)
Lemma PageState_ext (st1 st2 : PageState) :
  sport st1 = sport st2 ->
  awayTeam st1 = awayTeam st2 ->
  homeTeam st1 = homeTeam st2 ->
  simulationResult st1 = simulationResult st2 ->
  awayOffensiveNumericGrade st1 = awayOffensiveNumericGrade st2 ->
  awayDefensiveNumericGrade st1 = awayDefensiveNumericGrade st2 ->
  homeOffensiveNumericGrade st1 = homeOffensiveNumericGrade st2 ->
  homeDefensiveNumericGrade st1 = homeDefensiveNumericGrade st2 ->
  currentAwayOffensiveRatingRef st1 = currentAwayOffensiveRatingRef st2 ->
  currentAwayDefensiveRatingRef st1 = currentAwayDefensiveRatingRef st2 ->
  currentHomeOffensiveRatingRef st1 = currentHomeOffensiveRatingRef st2 ->
  currentHomeDefensiveRatingRef st1 = currentHomeDefensiveRatingRef st2 ->
  originalAwayScoreRef st1 = originalAwayScoreRef st2 ->
  originalHomeScoreRef st1 = originalHomeScoreRef st2 ->
  originalRatings st1 = originalRatings st2 ->
  st1 = st2.
Proof. destruct st1, st2; cbn; intros; subst; reflexivity. Qed.

(** X15 -- A response settles the page.  When both teams are selected, no
    baseline is stored yet and the response lists at least two teams, the
    page holds a captured baseline afterwards: its baseline scores are the
    displayed scores, every slider is on its baseline grade, and the run of
    the effect that follows changes nothing, so the service's own spread,
    total and probabilities stay on display. *)
Theorem response_settles_the_page {L : LowerCase} (data : ApiResponse.t) (st : PageState)
  (away home : Team.t) (l : list ApiTeam.t) :
  awayTeam st = Some away -> homeTeam st = Some home -> originalRatings st = None ->
  ApiResponse.team data = Some l -> (2 <= List.length l)%nat ->
  let st' := applySimulationResponse data st in
  exists (o : OriginalRatings.t) (r : SimulationResult),
    simulationResult st' = Some r
    /\ baselineCaptured st' o (away_score r) (home_score r)
    /\ slidersAtBaseline st' o = true
    /\ recompute st' = st'.
Proof.
  intros Haway Hhome Hnone Hteam Hlen st'.
  destruct (lookup_defined "Away" 0 l away) as [ta Hta]; [lia |].
  destruct (lookup_defined "Home" 1 l home) as [th Hth]; [lia |].
  assert (Hst' : exists o r,
             simulationResult st' = Some r
             /\ baselineCaptured st' o (away_score r) (home_score r)
             /\ slidersAtBaseline st' o = true).
  { subst st'. unfold applySimulationResponse.
    rewrite Haway, Hhome, Hnone, Hteam.
    change (Matching.awayTeamData l away) with (Matching.lookup "Away" 0 l away).
    change (Matching.homeTeamData l home) with (Matching.lookup "Home" 1 l home).
    rewrite Hta, Hth. cbv zeta.
    apply Nat.leb_le in Hlen. rewrite Hlen.
    state_fields. rewrite Hnone.
    eexists. eexists. split; [reflexivity |].
    split.
    - unfold baselineCaptured. state_fields. rewrite Haway, Hhome.
      repeat split; discriminate.
    - unfold slidersAtBaseline, awayOffChanged, awayDefChanged, homeOffChanged,
        homeDefChanged.
      state_fields. now rewrite !strict_eq_number_refl. }
  destruct Hst' as (o & r & Hr & Hbase & Hat).
  exists o, r. repeat split; try assumption; try apply Hbase.
  rewrite (recompute_with_baseline st' o _ _ r Hbase Hr), Hat.
  now rewrite !strict_eq_number_refl.
Qed.

Lemma response_settles_the_page_witness :
  exists (o : OriginalRatings.t) (r : SimulationResult),
    simulationResult sampleState = Some r
    /\ baselineCaptured sampleState o (away_score r) (home_score r)
    /\ slidersAtBaseline sampleState o = true
    /\ recompute sampleState = sampleState.
Proof.
  apply (response_settles_the_page sampleResponse selectedState cowboys eagles
           (match ApiResponse.team sampleResponse with Some l => l | None => [] end));
    [reflexivity | reflexivity | reflexivity | reflexivity | simpl; lia].
Defined.



(** X17 -- A response with fewer than two teams, or with none, stores no
    baseline ratings: the sliders then move nothing, whatever the moves, and
    the page still holds the result the response gave (if any). *)
Theorem short_response_leaves_sliders_inert {L : LowerCase} (data : ApiResponse.t) (st : PageState)
  (moves : list (Slider * Q)) :
  originalRatings st = None ->
  match ApiResponse.team data with
  | Some l => (List.length l < 2)%nat
  | None => True
  end ->
  let st' := applySimulationResponse data st in
  originalRatings st' = None
  /\ simulationResult (moveSliders moves st') = simulationResult st'.
Proof.
  intros Hnone Hshort st'.
  assert (Hnone' : originalRatings st' = None).
  { subst st'. unfold applySimulationResponse. rewrite Hnone.
    destruct (awayTeam st) as [away |]; [| exact Hnone].
    destruct (homeTeam st) as [home |]; [| exact Hnone].
    cbv zeta.
    destruct (ApiResponse.team data) as [l |].
    - destruct (Matching.awayTeamData l away); [| exact Hnone].
      destruct (Matching.homeTeamData l home); [| exact Hnone].
      apply Nat.leb_gt in Hshort. rewrite Hshort. exact Hnone.
    - destruct (Matching.awayTeamData [] away); [| exact Hnone].
      destruct (Matching.homeTeamData [] home); exact Hnone. }
  split; [exact Hnone' |].
  now destruct (moveSliders_without_ratings moves st' Hnone') as (_ & H & _).
Qed.

Lemma short_response_leaves_sliders_inert_witness :
  let data := ApiResponse.mk
                (Some [ApiTeam.mk (Some "Dallas Cowboys") (Some "DAL") (Some "Away")
                         (Some 17) (Some 30) (Some 10) (Some 9) (Some 80) (Some 75) None])
                None None None in
  let st' := applySimulationResponse data selectedState in
  originalRatings st' = None
  /\ simulationResult (moveSliders [(AwayOff, 90)] st') = simulationResult st'.
Proof.
  intros data st'.
  apply (short_response_leaves_sliders_inert data selectedState [(AwayOff, 90)]).
  - reflexivity.
  - simpl. lia.
Defined.

(** X18 -- No zero is stored where the page has a default.  In the ratings a
    response stores, the two ranges, the home-field advantage and the four
    baseline grades are never zero (a zero or a missing value of the response
    having been replaced by 20, 1.25 and 75), so the fallback of the effect
    on the home-field advantage is never taken. *)
Theorem stored_ratings_have_no_zero {L : LowerCase} (data : ApiResponse.t) (st : PageState)
  (o : OriginalRatings.t) :
  originalRatings st = None ->
  originalRatings (applySimulationResponse data st) = Some o ->
  ~ OriginalRatings.offensiveRange o == 0
  /\ ~ OriginalRatings.defensiveRange o == 0
  /\ ~ OriginalRatings.homeFieldAdvantage o == 0
  /\ hfa o = OriginalRatings.homeFieldAdvantage o
  /\ forall sl : Slider, ~ baselineGrade sl o == 0.
Proof.
  intros Hnone Ho.
  assert (Hdefault : forall x d, ~ d == 0 -> ~ or_default x d == 0).
  { intros [v |] d Hd; cbn [or_default]; [| exact Hd].
    destruct (v === 0) eqn:E; [exact Hd |].
    intro H. apply strict_eq_number_iff in H. congruence. }
  assert (Hhfa : forall v, ~ v == 0 -> or_default (Some v) 1.25 = v).
  { intros v Hv. cbn [or_default].
    destruct (v === 0) eqn:E; [| reflexivity].
    apply strict_eq_number_iff in E. contradiction. }
  unfold applySimulationResponse in Ho. rewrite Hnone in Ho.
  destruct (awayTeam st) as [away |]; [| congruence].
  destruct (homeTeam st) as [home |]; [| congruence].
  cbv zeta in Ho.
  destruct (ApiResponse.team data) as [l |]; [| revert Ho; state_fields;
    destruct (Matching.awayTeamData [] away), (Matching.homeTeamData [] home);
    state_fields; congruence].
  destruct (Matching.awayTeamData l away) as [ta |];
    [| revert Ho; state_fields; congruence].
  destruct (Matching.homeTeamData l home) as [th |];
    [| revert Ho; state_fields; congruence].
  destruct (2 <=? List.length l)%nat; [| revert Ho; state_fields; congruence].
  revert Ho. state_fields. intro Ho. injection Ho as <-.
  cbn [OriginalRatings.offensiveRange OriginalRatings.defensiveRange
       OriginalRatings.homeFieldAdvantage].
  assert (H20 : ~ 20 == 0) by discriminate.
  assert (H125 : ~ 1.25 == 0) by discriminate.
  assert (H75 : ~ 75 == 0) by discriminate.
  split; [now apply Hdefault |]. split; [now apply Hdefault |].
  split; [now apply Hdefault |].
  split; [unfold hfa; cbn [OriginalRatings.homeFieldAdvantage];
          apply Hhfa; now apply Hdefault |].
  intros []; cbn [baselineGrade OriginalRatings.awayOffensiveNumericGrade
                  OriginalRatings.awayDefensiveNumericGrade
                  OriginalRatings.homeOffensiveNumericGrade
                  OriginalRatings.homeDefensiveNumericGrade];
    now apply Hdefault.
Qed.

Lemma stored_ratings_have_no_zero_witness :
  ~ OriginalRatings.offensiveRange sampleRatings == 0
  /\ ~ OriginalRatings.defensiveRange sampleRatings == 0
  /\ ~ OriginalRatings.homeFieldAdvantage sampleRatings == 0
  /\ hfa sampleRatings = OriginalRatings.homeFieldAdvantage sampleRatings
  /\ forall sl : Slider, ~ baselineGrade sl sampleRatings == 0.
Proof.
  apply (stored_ratings_have_no_zero sampleResponse selectedState sampleRatings);
    reflexivity.
Defined.

(** ** A change of the selected teams *)

Lemma resetOnTeamChange_fields (st : PageState) :
  sport (resetOnTeamChange st) = sport st
  /\ awayTeam (resetOnTeamChange st) = awayTeam st
  /\ homeTeam (resetOnTeamChange st) = homeTeam st
  /\ simulationResult (resetOnTeamChange st) = None
  /\ originalRatings (resetOnTeamChange st) = None.
Proof.
  unfold resetOnTeamChange. destruct (awayTeam st) eqn:Ha, (homeTeam st) eqn:Hh;
    cbn; rewrite ?Ha, ?Hh; repeat split; reflexivity.
Qed.

(** X19 -- After the effect on a change of the selected teams nothing is
    displayed and no baseline is stored, and this stays so however the
    sliders are moved: only a response brings a result back. *)
Theorem team_change_blanks_the_page (st : PageState) (moves : list (Slider * Q)) :
  simulationResult (moveSliders moves (resetOnTeamChange st)) = None
  /\ originalRatings (moveSliders moves (resetOnTeamChange st)) = None
  /\ awayTeam (moveSliders moves (resetOnTeamChange st)) = awayTeam st
  /\ homeTeam (moveSliders moves (resetOnTeamChange st)) = homeTeam st.
Proof.
  destruct (resetOnTeamChange_fields st) as (_ & Ha & Hh & Hres & Hnone).
  destruct (moveSliders_without_ratings moves _ Hnone) as (H1 & H2 & H3 & H4).
  rewrite H2, H3, H4. auto.
Qed.

(** X20 -- A new matchup owes nothing to the previous one.  After a change
    of the selected teams, the page that a response with at least two teams
    leaves depends on the sport, the two teams and the response only: the
    ratings, the scores kept in the refs, the displayed result and the
    slider grades of the page before leave no trace. *)
Theorem new_matchup_forgets_the_old_one {L : LowerCase} (data : ApiResponse.t) (st1 st2 : PageState)
  (away home : Team.t) (l : list ApiTeam.t) :
  sport st1 = sport st2 ->
  awayTeam st1 = Some away -> awayTeam st2 = Some away ->
  homeTeam st1 = Some home -> homeTeam st2 = Some home ->
  ApiResponse.team data = Some l -> (2 <= List.length l)%nat ->
  applySimulationResponse data (resetOnTeamChange st1)
  = applySimulationResponse data (resetOnTeamChange st2).
Proof.
  intros Hsport Ha1 Ha2 Hh1 Hh2 Hteam Hlen.
  destruct (lookup_defined "Away" 0 l away) as [ta Hta]; [lia |].
  destruct (lookup_defined "Home" 1 l home) as [th Hth]; [lia |].
  apply Nat.leb_le in Hlen.
  assert (Hfresh : forall st, awayTeam st = Some away -> homeTeam st = Some home ->
            applySimulationResponse data (resetOnTeamChange st)
            = applySimulationResponse data
                (mkPageState (sport st) (Some away) (Some home) None 75 75 75 75
                   None None None None None None None)).
  { intros st Ha Hh.
    destruct (resetOnTeamChange_fields st) as (Hs & Ha' & Hh' & Hres & Hnone).
    rewrite Ha in Ha'. rewrite Hh in Hh'.
    unfold applySimulationResponse. rewrite Ha', Hh', Hnone, Hteam.
    state_fields.
    change (Matching.awayTeamData l away) with (Matching.lookup "Away" 0 l away).
    change (Matching.homeTeamData l home) with (Matching.lookup "Home" 1 l home).
    rewrite Hta, Hth. cbv zeta. rewrite Hlen.
    state_fields. rewrite Hnone.
    apply PageState_ext; state_fields; rewrite ?Hs, ?Ha', ?Hh'; reflexivity. }
  now rewrite (Hfresh st1 Ha1 Hh1), (Hfresh st2 Ha2 Hh2), Hsport.
Qed.

Lemma new_matchup_forgets_the_old_one_witness :
  applySimulationResponse lowScoringResponse
    (resetOnTeamChange (moveSlider AwayOff 90 sampleState))
  = applySimulationResponse lowScoringResponse (resetOnTeamChange selectedState).
Proof.
  apply (new_matchup_forgets_the_old_one lowScoringResponse
           (moveSlider AwayOff 90 sampleState) selectedState cowboys eagles
           (match ApiResponse.team lowScoringResponse with Some l => l | None => [] end));
    [vm_compute; reflexivity | vm_compute; reflexivity | reflexivity
    | vm_compute; reflexivity | reflexivity | reflexivity | simpl; lia].
Defined.

(** ** The matching of the teams *)

(** X21 -- A lookup returns a team of the response, never anything else;
    the away lookup fails on the empty response only, the home lookup only on
    a response with at most one team. *)
Theorem lookups_return_listed_teams {L : LowerCase} (teams : list ApiTeam.t) (sel : Team.t) :
  (forall t, Matching.awayTeamData teams sel = Some t -> In t teams)
  /\ (forall t, Matching.homeTeamData teams sel = Some t -> In t teams)
  /\ (Matching.awayTeamData teams sel = None <-> teams = [])
  /\ (Matching.homeTeamData teams sel = None -> (List.length teams <= 1)%nat).
Proof.
  assert (Hin : forall v position t,
            Matching.lookup v position teams sel = Some t -> In t teams).
  { intros v position t. unfold Matching.lookup.
    destruct (find (Matching.matchesSelected sel) teams) as [t1 |] eqn:E1.
    - intros [= <-]. now apply find_some in E1.
    - destruct (find (Matching.hasVenue v) teams) as [t2 |] eqn:E2.
      + intros [= <-]. now apply find_some in E2.
      + cbn [or_else]. destruct (nth_error teams position) eqn:E3; [| discriminate].
        intros [= <-]. now apply nth_error_In in E3. }
  assert (Hnone : forall v position,
            Matching.lookup v position teams sel = None ->
            (List.length teams <= position)%nat).
  { intros v position. unfold Matching.lookup.
    destruct (find (Matching.matchesSelected sel) teams); [discriminate |].
    destruct (find (Matching.hasVenue v) teams); [discriminate |].
    cbn [or_else]. destruct (nth_error teams position) eqn:E3; [discriminate |].
    intros _. now apply nth_error_None. }
  split; [apply (Hin "Away" 0%nat) |]. split; [apply (Hin "Home" 1%nat) |].
  split; [| apply (Hnone "Home" 1%nat)].
  split.
  - intro H. apply (Hnone "Away" 0%nat) in H. destruct teams; [reflexivity | cbn in H; lia].
  - intros ->. reflexivity.
Qed.

Lemma find_the_candidate {L : LowerCase} (teams : list ApiTeam.t) (sel : Team.t) (t : ApiTeam.t) :
  Matching.oneCandidate teams sel ->
  In t teams -> Matching.matchesSelected sel t = true ->
  find (Matching.matchesSelected sel) teams = Some t.
Proof.
  intros Hone Hin Hmatch.
  destruct (find (Matching.matchesSelected sel) teams) as [t1 |] eqn:E.
  - apply find_some in E. destruct E as [Hin1 Hmatch1].
    f_equal. now apply Hone.
  - pose proof (find_none _ _ E t Hin). congruence.
Qed.

(** X22 -- The order of the response does not matter once the match is
    unambiguous: when the elements that pass a test of the selected team are
    all one team [t] of the response, both lookups return [t] on the response
    and on every reordering of it, whatever the lower-casing of the two
    lower-cased tests. *)
Theorem matched_team_ignores_the_order {L : LowerCase} (teams teams' : list ApiTeam.t)
  (sel : Team.t) (t : ApiTeam.t) :
  Permutation teams teams' ->
  Matching.oneCandidate teams sel ->
  In t teams -> Matching.matchesSelected sel t = true ->
  Matching.awayTeamData teams sel = Some t /\ Matching.awayTeamData teams' sel = Some t
  /\ Matching.homeTeamData teams sel = Some t /\ Matching.homeTeamData teams' sel = Some t.
Proof.
  intros Hperm Hone Hin Hmatch.
  assert (Hone' : Matching.oneCandidate teams' sel).
  { intros t1 t2 H1 H2.
    apply Hone; [apply (Permutation_in t1 (Permutation_sym Hperm) H1)
                | apply (Permutation_in t2 (Permutation_sym Hperm) H2)]. }
  assert (Hin' : In t teams') by (eapply Permutation_in; eauto).
  unfold Matching.awayTeamData, Matching.homeTeamData.
  rewrite (find_the_candidate teams sel t Hone Hin Hmatch),
    (find_the_candidate teams' sel t Hone' Hin' Hmatch).
  repeat split; reflexivity.
Qed.

Lemma matched_team_ignores_the_order_witness :
  let dallas := ApiTeam.mk (Some "Dallas Cowboys") (Some "DAL") (Some "Away")
                  (Some 17) (Some 30) (Some 10) (Some 9) (Some 80) (Some 75) None in
  let philadelphia := ApiTeam.mk (Some "Philadelphia Eagles") (Some "PHI") (Some "Home")
                        (Some 24) (Some 70) (Some 11) (Some 8) (Some 82) (Some 78)
                        (Some 1.25) in
  Matching.awayTeamData [dallas; philadelphia] eagles = Some philadelphia
  /\ Matching.awayTeamData [philadelphia; dallas] eagles = Some philadelphia
  /\ Matching.homeTeamData [dallas; philadelphia] eagles = Some philadelphia
  /\ Matching.homeTeamData [philadelphia; dallas] eagles = Some philadelphia.
Proof.
  intros dallas philadelphia.
  apply (matched_team_ignores_the_order [dallas; philadelphia] [philadelphia; dallas]
           eagles philadelphia).
  - apply perm_swap.
  - intros t1 t2 [<- | [<- | []]] [<- | [<- | []]] H1 H2;
      reflexivity || discriminate.
  - right. left. reflexivity.
  - reflexivity.
Defined.

(** X23 -- Teams without an abbreviation collide.  [undefined === undefined]
    holds, so a selected team without an abbreviation matches every element
    of the response without one.  When neither selected team has an
    abbreviation and the first element of the response has none, both lookups
    return that first element, and the page displays the same score and the
    same win probability for the two sides. *)
Theorem teams_without_abbreviation_collide {L : LowerCase} (data : ApiResponse.t) (st : PageState)
  (away home : Team.t) (first : ApiTeam.t) (others : list ApiTeam.t) :
  awayTeam st = Some away -> homeTeam st = Some home -> originalRatings st = None ->
  Team.abbreviation away = None -> Team.abbreviation home = None ->
  ApiResponse.team data = Some (first :: others) ->
  ApiTeam.abbreviation first = None ->
  Matching.awayTeamData (first :: others) away = Some first
  /\ Matching.homeTeamData (first :: others) home = Some first
  /\ exists r : SimulationResult,
       simulationResult (applySimulationResponse data st) = Some r
       /\ away_score r = home_score r
       /\ away_win_probability r = home_win_probability r.
Proof.
  intros Haway Hhome Hnone Habbr_away Habbr_home Hteam Hfirst.
  assert (Hlookup : forall sel, Team.abbreviation sel = None ->
            find (Matching.matchesSelected sel) (first :: others) = Some first).
  { intros sel Hsel. cbn [find].
    replace (Matching.matchesSelected sel first) with true; [reflexivity |].
    symmetry. apply MatchingFacts.matchesSelected_iff. right. right. left.
    unfold Matching.exactAbbreviation. now rewrite Hfirst, Hsel. }
  assert (Ha : Matching.awayTeamData (first :: others) away = Some first)
    by (unfold Matching.awayTeamData; now rewrite Hlookup).
  assert (Hh : Matching.homeTeamData (first :: others) home = Some first)
    by (unfold Matching.homeTeamData; now rewrite Hlookup).
  split; [exact Ha |]. split; [exact Hh |].
  unfold applySimulationResponse. rewrite Haway, Hhome, Hnone, Hteam, Ha, Hh.
  cbv zeta.
  destruct (2 <=? List.length (first :: others))%nat; state_fields;
    eexists; (split; [reflexivity |]); split; reflexivity.
Qed.

Lemma teams_without_abbreviation_collide_witness :
  let away := Team.mk "1" "Ohio State" None in
  let home := Team.mk "2" "Michigan" None in
  let st := mkPageState college_football (Some away) (Some home) None 75 75 75 75
              None None None None None None None in
  let first := ApiTeam.mk (Some "Buckeyes") None (Some "Away")
                 (Some 31) (Some 64) (Some 12) (Some 7) (Some 88) (Some 84) None in
  let others := [ApiTeam.mk (Some "Wolverines") None (Some "Home")
                   (Some 24) (Some 36) (Some 10) (Some 8) (Some 85) (Some 86) (Some 2)] in
  let data := ApiResponse.mk (Some (first :: others)) None None None in
  Matching.awayTeamData (first :: others) away = Some first
  /\ Matching.homeTeamData (first :: others) home = Some first
  /\ exists r : SimulationResult,
       simulationResult (applySimulationResponse data st) = Some r
       /\ away_score r = home_score r
       /\ away_win_probability r = home_win_probability r.
Proof.
  intros away home st first others data.
  apply (teams_without_abbreviation_collide data st away home first others);
    reflexivity.
Defined.

(** ** The search of a team *)

Lemma string_app_assoc (a b c : string) : ((a ++ b) ++ c = a ++ (b ++ c))%string.
Proof. induction a as [| x a IH]; cbn; [reflexivity | now rewrite IH]. Qed.

Lemma prefix_iff (sub s : string) :
  String.prefix sub s = true <-> exists post, s = (sub ++ post)%string.
Proof.
  revert sub. induction s as [| b s IH]; intros [| a sub]; cbn.
  - split; [now exists "" | reflexivity].
  - split; [discriminate | intros [post H]; discriminate].
  - split; [now exists (String b s) | reflexivity].
  - destruct (ascii_dec a b) as [-> | Hneq].
    + rewrite IH. split; intros [post H]; exists post; [now rewrite H | now injection H].
    + split; [discriminate | intros [post H]; injection H as H1 H2; congruence].
Qed.

(** [includes] is the occurrence of [sub] somewhere in [s]. *)
Lemma includes_iff (s sub : string) :
  includes s sub = true <-> exists pre post, s = (pre ++ sub ++ post)%string.
Proof.
  induction s as [| c s IH].
  - cbn [includes]. rewrite orb_false_r, prefix_iff. split.
    + intros [post H]. now exists "", post.
    + intros (pre & post & H). destruct pre; [now exists post | discriminate].
  - cbn [includes]. rewrite orb_true_iff, prefix_iff, IH. split.
    + intros [[post H] | (pre & post & H)].
      * now exists "", post.
      * exists (String c pre), post. cbn. now rewrite H.
    + intros ([| x pre] & post & H).
      * left. now exists post.
      * right. exists pre, post. cbn in H. now injection H.
Qed.

Lemma includes_itself (s : string) : includes s s = true.
Proof.
  apply includes_iff. exists "", "". cbn.
  induction s as [| c s IH]; cbn; [reflexivity | now rewrite <- IH].
Qed.

(** An occurrence in an occurrence is an occurrence. *)
Lemma includes_trans (s middle sub : string) :
  includes s middle = true -> includes middle sub = true -> includes s sub = true.
Proof.
  rewrite !includes_iff. intros (pre & post & ->) (pre' & post' & ->).
  exists (pre ++ pre')%string, (post' ++ post)%string.
  now rewrite !string_app_assoc.
Qed.

Lemma teamMatchesSearch_iff {L : LowerCase} (search : string) (team : Team.t) :
  teamMatchesSearch search team = true <->
  includes (toLowerCase (Team.name team)) (toLowerCase search) = true
  \/ (exists abbreviation,
        Team.abbreviation team = Some abbreviation
        /\ includes (toLowerCase abbreviation) (toLowerCase search) = true).
Proof.
  unfold teamMatchesSearch. rewrite orb_true_iff.
  destruct (Team.abbreviation team) as [abbreviation |]; cbn [option_map].
  - split; (intros [H | H]; [now left | right]).
    + now exists abbreviation.
    + now destruct H as (? & [= <-] & H).
  - split; (intros [H | H]; [now left |]); [discriminate |].
    destruct H as (? & H & _). discriminate.
Qed.

(** X24 -- What a search lists, whatever the lower-casing.  A search whose
    lower-case form is empty (the empty search) lists every team, in the
    order of the list; a team is listed for every search that has the
    lower-case form of its name, or of its abbreviation; two searches with
    the same lower-case form list the same teams; the two dropdowns filter
    alike. *)
Theorem search_lists_the_team {L : LowerCase} (teams : list Team.t) :
  (forall search, toLowerCase search = "" -> filteredAwayTeams teams search = teams)
  /\ (forall team search, In team teams ->
        toLowerCase search = toLowerCase (Team.name team) ->
        In team (filteredAwayTeams teams search))
  /\ (forall team abbreviation search, In team teams ->
        Team.abbreviation team = Some abbreviation ->
        toLowerCase search = toLowerCase abbreviation ->
        In team (filteredAwayTeams teams search))
  /\ (forall search1 search2, toLowerCase search1 = toLowerCase search2 ->
        filteredAwayTeams teams search1 = filteredAwayTeams teams search2)
  /\ (forall search, filteredHomeTeams teams search = filteredAwayTeams teams search).
Proof.
  unfold filteredAwayTeams, filteredHomeTeams.
  split; [| split; [| split; [| split]]].
  - intros search Hempty. apply forallb_filter_id, forallb_forall. intros team _.
    apply teamMatchesSearch_iff. left. rewrite Hempty.
    apply includes_iff. now exists "", (toLowerCase (Team.name team)).
  - intros team search Hin Hsearch. apply filter_In. split; [exact Hin |].
    apply teamMatchesSearch_iff. left. rewrite Hsearch. apply includes_itself.
  - intros team abbreviation search Hin Habbr Hsearch.
    apply filter_In. split; [exact Hin |].
    apply teamMatchesSearch_iff. right. exists abbreviation.
    split; [exact Habbr |]. rewrite Hsearch. apply includes_itself.
  - intros search1 search2 Hcase. apply filter_ext. intro team.
    unfold teamMatchesSearch. now rewrite Hcase.
  - reflexivity.
Qed.

(** X25 -- A search inside another lists at least as much.  When the
    lower-case form of one search occurs in the lower-case form of another,
    every team listed for the second is a team of the list that is listed for
    the first as well.  (The lower-casing of a part of a search need not be
    a part of the lower-casing of the search: the hypothesis is on the
    lower-case forms.) *)
Theorem search_inside_another {L : LowerCase} (teams : list Team.t)
  (inner outer : string) (team : Team.t) :
  includes (toLowerCase outer) (toLowerCase inner) = true ->
  In team (filteredAwayTeams teams outer) ->
  In team teams /\ In team (filteredAwayTeams teams inner).
Proof.
  unfold filteredAwayTeams. rewrite !filter_In. intros Hinside [Hin Hmatch].
  split; [exact Hin |]. split; [exact Hin |].
  apply teamMatchesSearch_iff. apply teamMatchesSearch_iff in Hmatch.
  destruct Hmatch as [H | (abbreviation & Habbr & H)].
  - left. exact (includes_trans _ _ _ H Hinside).
  - right. exists abbreviation. split; [exact Habbr |].
    exact (includes_trans _ _ _ H Hinside).
Qed.

Lemma search_inside_another_witness :
  In eagles [cowboys; eagles]
  /\ In eagles (filteredAwayTeams [cowboys; eagles] "eag").
Proof.
  apply (search_inside_another [cowboys; eagles] "eag" "Delphia eagLES" eagles).
  - reflexivity.
  - vm_compute. left. reflexivity.
Defined.

(* ================================================================= *)
(** ** The team route *)

(** The answer of the handler when the [team] parameter is given: the
    service decides. *)
Lemma GET_with_team (sportParam : option string) (team : string)
  (service : string -> TeamRoute.Upstream) :
  team <> "" ->
  TeamRoute.GET sportParam (Some team) service
  = match service (TeamRoute.VERSUS_API_BASE ++ "/teams/"
                   ++ TeamRoute.param_or sportParam "nfl" ++ "/" ++ team) with
    | TeamRoute.Ok data => TeamRoute.mkResponse 200 (TeamRoute.Data data)
    | TeamRoute.NotOk upstreamStatus errorText =>
      TeamRoute.mkResponse 500
        (TeamRoute.Error ("Versus API error: " ++ TeamRoute.showStatus upstreamStatus
                          ++ " - " ++ errorText))
    | TeamRoute.Throws (Some message) => TeamRoute.mkResponse 500 (TeamRoute.Error message)
    | TeamRoute.Throws None => TeamRoute.mkResponse 500 (TeamRoute.Error "Unknown error")
    end.
Proof.
  intro Hne. unfold TeamRoute.GET. cbn [TeamRoute.param_missing].
  destruct (team === "") eqn:Hempty; [| reflexivity].
  apply strict_eq_string_iff in Hempty. contradiction.
Qed.

(** X26 -- The answers of the team route.  Without a [team] parameter, or
    with an empty one, the handler answers 400 with its message and does so
    whatever the service; with one, the answer is decided by what the service
    gives for the address of that team: 200 with the data unchanged when the
    service answers well, 500 with an error message in every other case (the
    status and text of a refusal, the message of an exception, or
    ['Unknown error']).  So 400 is answered exactly for a missing team, 200
    exactly for data passed on and 500 exactly for a failure of the service;
    a missing or empty [sport] parameter stands for ['nfl']. *)
Theorem team_route_statuses (sportParam teamParam : option string)
  (service : string -> TeamRoute.Upstream) :
  let answer := TeamRoute.GET sportParam teamParam service in
  let address team :=
    TeamRoute.VERSUS_API_BASE ++ "/teams/" ++ TeamRoute.param_or sportParam "nfl"
    ++ "/" ++ team in
  (teamParam = None \/ teamParam = Some "" ->
   answer = TeamRoute.mkResponse 400 (TeamRoute.Error "Missing required parameter: team"))
  /\ (TeamRoute.status answer = 400%nat <-> teamParam = None \/ teamParam = Some "")
  /\ (forall team, teamParam = Some team -> team <> "" ->
      answer
      = match service (address team) with
        | TeamRoute.Ok data => TeamRoute.mkResponse 200 (TeamRoute.Data data)
        | TeamRoute.NotOk upstreamStatus errorText =>
          TeamRoute.mkResponse 500
            (TeamRoute.Error ("Versus API error: " ++ TeamRoute.showStatus upstreamStatus
                              ++ " - " ++ errorText))
        | TeamRoute.Throws (Some message) =>
          TeamRoute.mkResponse 500 (TeamRoute.Error message)
        | TeamRoute.Throws None => TeamRoute.mkResponse 500 (TeamRoute.Error "Unknown error")
        end)
  /\ (TeamRoute.status answer = 200%nat <->
      exists team data, teamParam = Some team /\ team <> ""
        /\ service (address team) = TeamRoute.Ok data
        /\ TeamRoute.body answer = TeamRoute.Data data)
  /\ (TeamRoute.status answer = 500%nat <->
      exists team message, teamParam = Some team /\ team <> ""
        /\ (forall data, service (address team) <> TeamRoute.Ok data)
        /\ TeamRoute.body answer = TeamRoute.Error message)
  /\ (TeamRoute.status answer = 200%nat \/ TeamRoute.status answer = 400%nat
      \/ TeamRoute.status answer = 500%nat)
  /\ TeamRoute.GET None teamParam service = TeamRoute.GET (Some "nfl") teamParam service
  /\ TeamRoute.GET (Some "") teamParam service
     = TeamRoute.GET (Some "nfl") teamParam service.
Proof.
  intros answer address.
  assert (Hmissing : teamParam = None \/ teamParam = Some "" ->
            answer = TeamRoute.mkResponse 400
                       (TeamRoute.Error "Missing required parameter: team"))
    by (intros [-> | ->]; reflexivity).
  assert (Hpresent : teamParam = None \/ teamParam = Some ""
                     \/ exists team, teamParam = Some team /\ team <> "").
  { destruct teamParam as [team |]; [| now left].
    destruct (string_dec team "") as [-> | Hne]; [right; now left |].
    right. right. now exists team. }
  split; [exact Hmissing |].
  destruct Hpresent as [Hnone | [Hempty | (team & Hteam & Hne)]].
  - rewrite (Hmissing (or_introl Hnone)). cbn [TeamRoute.status TeamRoute.body].
    split; [tauto |].
    split; [intros team Hteam; congruence |].
    split; [split; [discriminate | intros (team & ? & Hteam & _); congruence] |].
    split; [split; [discriminate | intros (team & ? & Hteam & _); congruence] |].
    split; [auto |]. split; reflexivity.
  - rewrite (Hmissing (or_intror Hempty)). cbn [TeamRoute.status TeamRoute.body].
    split; [tauto |].
    split; [intros team Hteam Hne; congruence |].
    split; [split; [discriminate | intros (team & ? & Hteam & Hne & _); congruence] |].
    split; [split; [discriminate | intros (team & ? & Hteam & Hne & _); congruence] |].
    split; [auto |]. split; reflexivity.
  - assert (Hgiven : ~ (teamParam = None \/ teamParam = Some ""))
      by (intros [H | H]; congruence).
    assert (Hanswer := GET_with_team sportParam team service Hne).
    rewrite <- Hteam in Hanswer. fold answer in Hanswer. fold (address team) in Hanswer.
    assert (Hsame : forall team', teamParam = Some team' -> team' = team)
      by (intros team' H; congruence).
    split.
    { split; [| tauto]. intro H400. exfalso. rewrite Hanswer in H400.
      destruct (service (address team)) as [[message |] | ? ? | data]; discriminate. }
    split; [intros team' Hteam' _; now rewrite (Hsame team' Hteam') |].
    split.
    { split.
      - intro H200. exists team. rewrite Hanswer in H200 |- *.
        destruct (service (address team)) as [[message |] | ? ? | data];
          try discriminate. now exists data.
      - intros (team' & data & Hteam' & _ & Hok & _).
        rewrite (Hsame team' Hteam') in Hok. now rewrite Hanswer, Hok. }
    split.
    { split.
      - intro H500. exists team. rewrite Hanswer in H500 |- *.
        destruct (service (address team)) as [[message |] | ? ? | data];
          try discriminate; eexists;
          (split; [exact Hteam | split; [exact Hne | split; [intro; discriminate
                                                            | reflexivity]]]).
      - intros (team' & message & Hteam' & _ & Hfail & _).
        rewrite (Hsame team' Hteam') in Hfail. rewrite Hanswer.
        destruct (service (address team)) as [[message' |] | ? ? | data];
          try reflexivity. now destruct (Hfail data). }
    split; [| split; reflexivity].
    rewrite Hanswer.
    destruct (service (address team)) as [[message |] | ? ? | data]; auto.
Qed.

(** ** The dropdowns *)

Lemma dropdowns_exclusive_step (d : Dropdowns.t) (e : Dropdowns.Event) :
  Dropdowns.showAwayDropdown d && Dropdowns.showHomeDropdown d = false ->
  Dropdowns.showAwayDropdown (Dropdowns.handle d e)
  && Dropdowns.showHomeDropdown (Dropdowns.handle d e) = false.
Proof. destruct d as [[] [] []], e; cbn; congruence. Qed.

Lemma dropdowns_exclusive_from (events : list Dropdowns.Event) (d : Dropdowns.t) :
  Dropdowns.showAwayDropdown d && Dropdowns.showHomeDropdown d = false ->
  Dropdowns.showAwayDropdown (fold_left Dropdowns.handle events d)
  && Dropdowns.showHomeDropdown (fold_left Dropdowns.handle events d) = false.
Proof.
  revert d. induction events as [| e events IH]; intros d Hd; [exact Hd |].
  cbn [fold_left]. apply IH. now apply dropdowns_exclusive_step.
Qed.

(** X27 -- The two team dropdowns are never open together, after any
    sequence of clicks on the buttons, on the options and outside; a click
    outside closes the three dropdowns.  The dropdown of the sports and a
    team dropdown can be open together. *)
Theorem team_dropdowns_exclusive (events : list Dropdowns.Event) :
  Dropdowns.showAwayDropdown (Dropdowns.run events)
  && Dropdowns.showHomeDropdown (Dropdowns.run events) = false
  /\ Dropdowns.run (events ++ [Dropdowns.ClickOutside]) = Dropdowns.initial
  /\ Dropdowns.showSportDropdown
       (Dropdowns.run (events ++ [Dropdowns.ClickOutside; Dropdowns.SportButton;
                                  Dropdowns.AwayButton]))
     && Dropdowns.showAwayDropdown
          (Dropdowns.run (events ++ [Dropdowns.ClickOutside; Dropdowns.SportButton;
                                     Dropdowns.AwayButton])) = true.
Proof.
  assert (Hclose : forall d, Dropdowns.handle d Dropdowns.ClickOutside = Dropdowns.initial)
    by (now intros [[] [] []]).
  unfold Dropdowns.run. rewrite !fold_left_app. cbn [fold_left]. rewrite !Hclose.
  split; [| split; reflexivity].
  now apply dropdowns_exclusive_from.
Qed.

(** ** The travel of a slider *)

(** X28 -- Over the travel of the sliders, from 60 to 99, a projected rating
    stays within one range of its baseline rating: within the offensive range
    for the two offensive ratings, within the defensive range for the two
    defensive ones.  The baseline grades are taken on the same travel and the
    ranges not negative. *)
Theorem slider_travel_bounds_the_rating (o : OriginalRatings.t) (g : Q) :
  60 <= g -> g <= 99 ->
  (forall sl, 60 <= baselineGrade sl o /\ baselineGrade sl o <= 99) ->
  0 <= OriginalRatings.offensiveRange o -> 0 <= OriginalRatings.defensiveRange o ->
  Qabs (currentAwayOff o g - OriginalRatings.awayOffensiveRating o)
    <= OriginalRatings.offensiveRange o
  /\ Qabs (currentAwayDef o g - OriginalRatings.awayDefensiveRating o)
    <= OriginalRatings.defensiveRange o
  /\ Qabs (currentHomeOff o g - OriginalRatings.homeOffensiveRating o)
    <= OriginalRatings.offensiveRange o
  /\ Qabs (currentHomeDef o g - OriginalRatings.homeDefensiveRating o)
    <= OriginalRatings.defensiveRange o.
Proof.
  intros Hlo Hhi Hbase Hoff Hdef.
  assert (Hscale : forall g0 range rating, 60 <= g0 -> g0 <= 99 -> 0 <= range ->
            Qabs ((g - g0) * range / newRange + rating - rating) <= range).
  { intros g0 range rating H1 H2 Hr. apply Qabs_Qle_condition.
    assert (Hup : 0 <= (39 - (g - g0)) * range)
      by (apply Qmult_le_0_compat; [Lqa.lra | exact Hr]).
    assert (Hdown : 0 <= (39 + (g - g0)) * range)
      by (apply Qmult_le_0_compat; [Lqa.lra | exact Hr]).
    div_literals. split; Lqa.lra. }
  pose proof (Hbase AwayOff) as [? ?]. pose proof (Hbase AwayDef) as [? ?].
  pose proof (Hbase HomeOff) as [? ?]. pose proof (Hbase HomeDef) as [? ?].
  cbn [baselineGrade] in *.
  unfold currentAwayOff, currentAwayDef, currentHomeOff, currentHomeDef.
  repeat split; apply Hscale; assumption.
Qed.

Lemma slider_travel_bounds_the_rating_witness :
  Qabs (currentAwayOff sampleRatings 99 - 10) <= 20
  /\ Qabs (currentAwayDef sampleRatings 99 - 9) <= 20
  /\ Qabs (currentHomeOff sampleRatings 99 - 11) <= 20
  /\ Qabs (currentHomeDef sampleRatings 99 - 8) <= 20.
Proof.
  apply (slider_travel_bounds_the_rating sampleRatings 99);
    try discriminate.
  intros []; split; discriminate.
Defined.
